(** * The WAL ingestion pipeline of the Stackdriver Prometheus sidecar

    A shallow embedding of [retrieval/manager.go]: the [PrometheusReader],
    its [Run] loop and [Stop].  [Run] is one goroutine among three (the
    decode loop, the series-cache garbage collector started by
    [go seriesCache.run(ctx)], and whoever calls [Stop]); the embedding is
    a transition system whose events are the atomic actions of those
    goroutines, so that every statement below holds under every
    interleaving. *)

From stdpp Require Import gmap strings list fin_maps.

Open Scope Z_scope.

(** ** Go values *)

(** A Go [error] is represented by its message; the [nil] error is [None]
    of [option error]. *)
Definition error := string.

(** A fallible call [v, err := f(...)]. *)
Inductive result (A : Type) : Type :=
| Ok (a : A)
| Err (e : error).
Arguments Ok {A} a.
Arguments Err {A} e.

(** An IEEE-754 binary64 value, kept as its 64 bits ([math.Float64bits]).
    [Run] performs no arithmetic on sample values, it only copies them. *)
Definition float64 := Z.

Definition float64_NaN : float64 := 0x7FF8000000000001.
Definition float64_posInf : float64 := 0x7FF0000000000000.
Definition float64_negInf : float64 := 0xFFF0000000000000.

(** ** [labels]: label sets (the same shape in [tsdb/labels] and in
    [prometheus/pkg/labels]) *)

Record Label := { Label_Name : string; Label_Value : string }.
Abbreviation Labels := (list Label).

(** [labels.MetricName], the reserved label holding the metric's name. *)
Definition MetricName : string := "__name__".

(** ** [tsdb]: decoded WAL records *)

Inductive RecordType :=
| RecordInvalid
| RecordSeries
| RecordSamples
| RecordTombstones.

(** [tsdb.RefSeries]: a series declaration; [Ref] is a uint64. *)
Record RefSeries := { RefSeries_Ref : Z; RefSeries_Labels : Labels }.

(** [tsdb.RefSample]: [Ref] uint64, [T] int64 (milliseconds), [V] float64. *)
Record RefSample := { RefSample_Ref : Z; RefSample_T : Z; RefSample_V : float64 }.

(** ** [dto]: the protobuf metric family built by [Run]

    Optional protobuf fields are Go pointers; [proto.String],
    [proto.Float64], [proto.Int64] and [.Enum()] box a value, so a set
    field is [Some] and an untouched one is [None]. *)

Inductive MetricType :=
| MetricType_COUNTER
| MetricType_GAUGE
| MetricType_SUMMARY
| MetricType_UNTYPED
| MetricType_HISTOGRAM.

Record LabelPair := { LabelPair_Name : option string; LabelPair_Value : option string }.

Record Gauge := { Gauge_Value : option float64 }.
Record Counter := { Counter_Value : option float64 }.
Record Untyped := { Untyped_Value : option float64 }.

(** [dto.Metric]; the [Summary] and [Histogram] messages, which [Run]
    leaves nil like [Gauge] and [Counter], are not represented. *)
Record Metric := {
  Metric_Label : list LabelPair;
  Metric_Gauge : option Gauge;
  Metric_Counter : option Counter;
  Metric_Untyped : option Untyped;
  Metric_TimestampMs : option Z }.

Record dto_MetricFamily := {
  MetricFamily_Name : option string;
  MetricFamily_Help : option string;
  MetricFamily_Type : option MetricType;
  MetricFamily_Metric : list Metric }.

(** ** The collaborators of [Run] that live outside [manager.go]

    [record] is the byte payload handed out by [reader.Record()]; [Run]
    never looks inside it, it only passes it to the [tsdb.RecordDecoder].
    [MetricFamily], [NewMetricFamily] and [NoTimestamp] are declared
    elsewhere in package [retrieval]. *)
Class Externals := {
  record : Type;
  decoder_Type : record -> RecordType;
  decoder_Series : record -> result (list RefSeries);
  decoder_Samples : record -> result (list RefSample);
  MetricFamily : Type;
  NewMetricFamily : dto_MetricFamily -> list Z -> Labels -> result MetricFamily;
  NoTimestamp : Z }.

(** ** The series cache

    [cacheEntry] is the spec's CacheEntry: the labels of a ref and the
    youngest segment in which the ref was seen. *)
Record cacheEntry := { entry_lset : Labels; entry_maxSegment : Z }.

Abbreviation seriesCache := (gmap Z cacheEntry).

(** Modelled from the spec: [newSeriesCache] is not in [manager.go]; the
    cache is empty on process start. *)
Definition newSeriesCache : seriesCache := ∅.

(** Modelled from the spec: [seriesCache.set] is not in [manager.go];
    it inserts or updates the entry and moves maxSegmentSeen to
    max(existing, observedInSegment). *)
Definition seriesCache_set (ref : Z) (lset : Labels) (segment : Z)
    (c : seriesCache) : seriesCache :=
  match c !! ref with
  | Some e => <[ref := {| entry_lset := lset;
                           entry_maxSegment := Z.max (entry_maxSegment e) segment |}]> c
  | None => <[ref := {| entry_lset := lset; entry_maxSegment := segment |}]> c
  end.

(** Modelled from the spec: [seriesCache.get] is not in [manager.go];
    it answers (labels, true) or (⊥, false). *)
Definition seriesCache_get (ref : Z) (c : seriesCache) : option Labels :=
  entry_lset <$> c !! ref.

(** Modelled from the spec: one round of the garbage collector run by
    [seriesCache.run], which is not in [manager.go]; given the oldest
    surviving segment S_min it removes every entry with
    maxSegmentSeen < S_min. *)
Definition seriesCache_gc (smin : Z) (c : seriesCache) : seriesCache :=
  filter (λ kv, smin ≤ entry_maxSegment kv.2) c.

(** ** Translation of one sample (manager.go, lines 91-117) *)

(** The loop of lines 97-106 over the label set, with the two variables
    it assigns: [metricFamily.Name] and [metric.Label]. *)
Fixpoint copyLabels (lset : Labels) (name : option string) (label : list LabelPair)
    : option string * list LabelPair :=
  match lset with
  | [] => (name, label)
  | l :: lset' =>
      if decide (Label_Name l = MetricName)
      then copyLabels lset' (Some (Label_Value l)) label
      else copyLabels lset' name
             (label ++ [{| LabelPair_Name := Some (Label_Name l);
                           LabelPair_Value := Some (Label_Value l) |}])
  end.

(** [make([]*dto.LabelPair, 0, len(lset)-1)]: Go's [make] panics at run
    time when the capacity is negative, which is the case for an empty
    label set. *)
Definition make_LabelPairs (cap : Z) : option (list LabelPair) :=
  if decide (cap < 0) then None else Some [].

(** Lines 92-110: the [dto.MetricFamily] handed to [NewMetricFamily];
    [None] is the run-time panic of [make]. *)
Definition buildMetricFamily (lset : Labels) (sample : RefSample)
    : option dto_MetricFamily :=
  match make_LabelPairs (Z.of_nat (length lset) - 1) with
  | None => None
  | Some label0 =>
      let '(name, label) := copyLabels lset None label0 in
      Some {| MetricFamily_Name := name;
              MetricFamily_Help := None;
              MetricFamily_Type := Some MetricType_UNTYPED;
              MetricFamily_Metric :=
                [{| Metric_Label := label;
                    Metric_Gauge := None;
                    Metric_Counter := None;
                    Metric_Untyped := Some {| Untyped_Value := Some (RefSample_V sample) |};
                    Metric_TimestampMs := Some (RefSample_T sample) |}] |}
  end.

(** Lines 114-117: [targetLabels] is an element-wise copy of [lset]. *)
Definition targetLabels (lset : Labels) : Labels :=
  (λ l, {| Label_Name := Label_Name l; Label_Value := Label_Value l |}) <$> lset.

(** ** Observable effects

    [Run] talks to its environment through the logger and the appender.
    [Effect] is the alphabet of the core's observability surface: log
    records, counter increments and [Append] calls.  [manager.go] never
    touches a counter, so [Count] is issued by no transition below. *)

Inductive Level := LevelInfo | LevelWarn | LevelError.

Inductive LogValue :=
| LStr (s : string)
| LErr (e : error)
| LSample (s : RefSample).

(** [context.CancelFunc]: the only one ever created is the one returned by
    [context.WithCancel] on line 49. *)
Inductive CancelFunc := cancelCtx.

(** The struct of lines 39-44.  The [logger] and [appender] fields are
    interface values; calls through them are recorded as [Effect]s. *)
Record PrometheusReader := {
  walDirectory : string;
  cancelTail : option CancelFunc }.

(** Lines 31-37: the constructor leaves [cancelTail] at its zero value. *)
Definition NewPrometheusReader (walDirectory : string) : PrometheusReader :=
  {| walDirectory := walDirectory; cancelTail := None |}.

(** A run-time panic of the process. *)
Inductive Panic :=
| NilFuncCall      (* call of a nil func value *)
| MakeSliceCap.    (* makeslice: cap out of range *)

Section Model.
Context `{X : Externals}.

Inductive Effect :=
| Log (lvl : Level) (keyvals : list (string * LogValue))
| Count (counter : string)
| Append (f : MetricFamily).

(** What one call of [reader.Next()] answers, together with what
    [reader.Err()], [reader.Record()] and [tailer.CurrentSegment()] return
    until the next call. *)
Inductive Resp :=
| Yield (rec : record) (segment : Z) (err : option error)   (* Next() = true *)
| Halt (err : option error).                                (* Next() = false *)

(** The environment of one run: the outcome of [tail.Tail] and the
    answers the record reader gives as long as it is not cancelled. *)
Record World := {
  world_walDirectory : string;
  tail_Tail : option error;
  responses : list Resp }.

(** Modelled from the spec: the tailer (package [tail]) lives outside
    [manager.go].  Cancellation makes all in-flight and future reads
    fail promptly, which the record reader observes as EOF-equivalent:
    [Next()] is false and [Err()] is nil.  Without cancellation the reader
    answers from [unread]; at the tail of the log ([unread] empty) the read
    blocks, which is [None]. *)
Definition reader_Next (done : bool) (unread : list Resp) : option (Resp * list Resp) :=
  if done then Some (Halt None, unread)
  else match unread with
       | [] => None
       | r :: unread' => Some (r, unread')
       end.

(** Where the goroutine executing [Run] stands. *)
Inductive PC :=
| NotStarted                                    (* Run not yet called *)
| Opening                                       (* line 50, before tail.Tail *)
| AtNext                                        (* line 63, before reader.Next() *)
| InSeries (pending : list RefSeries) (segment : Z)   (* loop of line 76 *)
| InSamples (pending : list RefSample)          (* loop of line 85 *)
| Returned (err : option error)                 (* Run has returned err *)
| Panicked (why : Panic).                       (* the process died *)

(** What became of a sample that went through the loop body of lines
    86-123. *)
Inductive Disposition :=
| UnknownRef
| CannotConstruct (e : error)
| Emitted (lset : Labels) (f : MetricFamily).

(** [journal] is an auxiliary history variable: transitions write it and
    never read it.  It pairs every sample that went through the loop body
    with its disposition, so that statements can tell which [Append]
    belongs to which sample. *)
Record State := {
  pc : PC;
  rdr : PrometheusReader;
  ctxDone : bool;
  cache : seriesCache;
  unread : list Resp;
  effects : list Effect;
  journal : list (RefSample * Disposition) }.

Definition init (w : World) : State :=
  {| pc := NotStarted;
     rdr := NewPrometheusReader (world_walDirectory w);
     ctxDone := false;
     cache := ∅;
     unread := responses w;
     effects := [];
     journal := [] |}.

Definition goto (p : PC) (st : State) : State :=
  {| pc := p; rdr := rdr st; ctxDone := ctxDone st; cache := cache st;
     unread := unread st; effects := effects st; journal := journal st |}.

Definition emit (e : Effect) (st : State) : State :=
  {| pc := pc st; rdr := rdr st; ctxDone := ctxDone st; cache := cache st;
     unread := unread st; effects := effects st ++ [e]; journal := journal st |}.

Definition note (s : RefSample) (d : Disposition) (st : State) : State :=
  {| pc := pc st; rdr := rdr st; ctxDone := ctxDone st; cache := cache st;
     unread := unread st; effects := effects st; journal := journal st ++ [(s, d)] |}.

Definition with_cache (c : seriesCache) (st : State) : State :=
  {| pc := pc st; rdr := rdr st; ctxDone := ctxDone st; cache := c;
     unread := unread st; effects := effects st; journal := journal st |}.

Definition with_unread (rs : list Resp) (st : State) : State :=
  {| pc := pc st; rdr := rdr st; ctxDone := ctxDone st; cache := cache st;
     unread := rs; effects := effects st; journal := journal st |}.

(** Line 49: [ctx, r.cancelTail = context.WithCancel(context.Background())]. *)
Definition with_cancel (st : State) : State :=
  {| pc := pc st;
     rdr := {| walDirectory := walDirectory (rdr st); cancelTail := Some cancelCtx |};
     ctxDone := false; cache := cache st;
     unread := unread st; effects := effects st; journal := journal st |}.

Definition cancel (st : State) : State :=
  {| pc := pc st; rdr := rdr st; ctxDone := true; cache := cache st;
     unread := unread st; effects := effects st; journal := journal st |}.

(** Lines 47-49, taken as one action.  In the program a [Stop] can land
    between the log of line 47 and the assignment of line 49: it still
    finds [r.cancelTail] nil and panics.  With the two lines in one action
    such a [Stop] takes place before the action: the panic is the same,
    the log record of line 47 is then missing from the effects. *)
Definition Run_start (st : State) : State :=
  goto Opening
    (with_cancel
       (emit (Log LevelInfo [("msg", LStr "Starting Prometheus reader...")]) st)).

(** Lines 50-56. *)
Definition Run_open (w : World) (st : State) : State :=
  match tail_Tail w with
  | Some err => goto (Returned (Some err)) (emit (Log LevelError [("error", LErr err)]) st)
  | None => goto AtNext (with_cache newSeriesCache st)
  end.

(** Lines 67-83 and 125: the dispatch on the kind of a record. *)
Definition Run_dispatch (rec : record) (segment : Z) (st : State) : State :=
  match decoder_Type rec with
  | RecordSeries =>
      match decoder_Series rec with
      | Err err => goto AtNext (emit (Log LevelError [("error", LErr err)]) st)
      | Ok recordSeries => goto (InSeries recordSeries segment) st
      end
  | RecordSamples =>
      match decoder_Samples rec with
      | Err err => goto AtNext (emit (Log LevelError [("error", LErr err)]) st)
      | Ok recordSamples => goto (InSamples recordSamples) st
      end
  | RecordTombstones => goto AtNext st
  | RecordInvalid => goto AtNext st
  end.

(** Lines 63-66 and 127-129: the loop head. *)
Definition Run_next (st : State) : State :=
  match reader_Next (ctxDone st) (unread st) with
  | None => st
  | Some (Halt _, unread') =>
      goto (Returned None)
        (emit (Log LevelInfo [("msg", LStr "Done processing WAL.")])
           (with_unread unread' st))
  | Some (Yield rec segment (Some err), unread') =>
      goto (Returned (Some err)) (with_unread unread' st)
  | Some (Yield rec segment None, unread') =>
      Run_dispatch rec segment (with_unread unread' st)
  end.

(** Line 77, for one element of [recordSeries]. *)
Definition Run_series (series : RefSeries) (rest : list RefSeries) (segment : Z)
    (st : State) : State :=
  goto (InSeries rest segment)
    (with_cache
       (seriesCache_set (RefSeries_Ref series) (RefSeries_Labels series) segment (cache st))
       st).

(** Lines 86-123, for one element of [recordSamples]. *)
Definition Run_sample (sample : RefSample) (rest : list RefSample) (st : State) : State :=
  match seriesCache_get (RefSample_Ref sample) (cache st) with
  | None =>
      goto (InSamples rest)
        (note sample UnknownRef
           (emit (Log LevelWarn [("msg", LStr "Unknown series ref in sample");
                                 ("sample", LSample sample)]) st))
  | Some lset =>
      match buildMetricFamily lset sample with
      | None => goto (Panicked MakeSliceCap) st
      | Some metricFamily =>
          let metricResetTimestampMs := [NoTimestamp] in
          match NewMetricFamily metricFamily metricResetTimestampMs (targetLabels lset) with
          | Err err =>
              goto (InSamples rest)
                (note sample (CannotConstruct err)
                   (emit (Log LevelWarn [("msg", LStr "Cannot construct MetricFamily");
                                         ("err", LErr err)]) st))
          | Ok f =>
              goto (InSamples rest) (note sample (Emitted lset f) (emit (Append f) st))
          end
      end
  end.

(** One atomic action of the goroutine executing [Run]. *)
Definition Run_step (w : World) (st : State) : State :=
  match pc st with
  | NotStarted => Run_start st
  | Opening => Run_open w st
  | AtNext => Run_next st
  | InSeries [] _ => goto AtNext st
  | InSeries (series :: rest) segment => Run_series series rest segment st
  | InSamples [] => goto AtNext st
  | InSamples (sample :: rest) => Run_sample sample rest st
  | Returned _ => st
  | Panicked _ => st
  end.

(** Lines 133-135: [r.cancelTail()]. Calling a nil func value panics. *)
Definition Stop (st : State) : State :=
  match pc st with
  | Panicked _ => st
  | _ =>
      match cancelTail (rdr st) with
      | None => goto (Panicked NilFuncCall) st
      | Some cancelCtx => cancel st
      end
  end.

(** One round of the collector goroutine, which lives until the context
    is done. *)
Definition gc_step (smin : Z) (st : State) : State :=
  match pc st with
  | Panicked _ => st
  | _ => if ctxDone st then st else with_cache (seriesCache_gc smin (cache st)) st
  end.

(** The atomic actions of the three goroutines. *)
Inductive Event :=
| RunStep
| GC (smin : Z)
| StopCall.

Definition step (w : World) (ev : Event) (st : State) : State :=
  match ev with
  | RunStep => Run_step w st
  | GC smin => gc_step smin st
  | StopCall => Stop st
  end.

(** An interleaving is a list of events, executed left to right. *)
Definition exec (w : World) (evs : list Event) (st : State) : State :=
  foldl (λ st ev, step w ev st) st evs.

End Model.

#[global] Instance Event_eq_dec : EqDecision Event.
Proof. solve_decision. Defined.

Arguments Effect : clear implicits.
Arguments State : clear implicits.
Arguments World : clear implicits.

(** ** Reading a run *)

Section Observations.
Context `{X : Externals}.

(** The arguments of the [Append] calls made so far, in call order. *)
Definition appended (es : list (Effect X)) : list MetricFamily :=
  omap (λ e, match e with Append f => Some f | _ => None end) es.

(** How often the counter [name] was incremented. *)
Definition counted (name : string) (es : list (Effect X)) : nat :=
  length (filter (λ n, n = name)
            (omap (λ e, match e with Count n => Some n | _ => None end) es)).

(** The log records written so far. *)
Definition logged (es : list (Effect X)) : list (Level * list (string * LogValue)) :=
  omap (λ e, match e with Log lvl kv => Some (lvl, kv) | _ => None end) es.

(** The journal entries that ended in an [Append], with what was appended. *)
Definition emitted (j : list (RefSample * Disposition)) : list (RefSample * MetricFamily) :=
  omap (λ sd, match sd.2 with Emitted _ f => Some (sd.1, f) | _ => None end) j.

(** The journal entries of one ref. *)
Definition of_ref (ref : Z) (j : list (RefSample * Disposition))
    : list (RefSample * Disposition) :=
  filter (λ sd, RefSample_Ref sd.1 = ref) j.

(** The samples of a record as [Run] gets to see them: those of a sample
    record that decodes; nothing for the other kinds, for a record that
    does not decode, and for an answer that ends the loop. *)
Definition samples_of_resp (r : Resp) : list RefSample :=
  match r with
  | Yield rec _ None =>
      match decoder_Type rec with
      | RecordSamples =>
          match decoder_Samples rec with
          | Ok l => l
          | Err _ => []
          end
      | _ => []
      end
  | _ => []
  end.

(** The samples of a stretch of the WAL, in WAL order: record by record
    and, within a record, in the order of the batch. *)
Definition wal_samples (rs : list Resp) : list RefSample :=
  rs ≫= samples_of_resp.

(** The series declarations of a record, as [Run] gets to see them. *)
Definition series_of_resp (r : Resp) : list RefSeries :=
  match r with
  | Yield rec _ None =>
      match decoder_Type rec with
      | RecordSeries =>
          match decoder_Series rec with
          | Ok l => l
          | Err _ => []
          end
      | _ => []
      end
  | _ => []
  end.

(** The data model's label sets hold at least the name label; [labelled]
    asks that no declaration of the WAL has an empty label set. *)
Definition labelled (w : World X) : Prop :=
  Forall (λ r, Forall (λ s, RefSeries_Labels s ≠ []) (series_of_resp r)) (responses w).

(** [Run] is inside its [for reader.Next()] loop. *)
Definition in_loop (p : PC) : Prop :=
  match p with
  | AtNext | InSeries _ _ | InSamples _ => True
  | _ => False
  end.


(** The number of steps an interleaving gives to [Run]. *)
Definition run_steps (evs : list Event) : nat :=
  length (filter (λ ev, ev = RunStep) evs).

(** The events of the goroutines other than [Run]'s. *)
Definition is_env (ev : Event) : Prop := ev ≠ RunStep.

(** The protobuf label pair made on lines 102-105. *)
Definition label_pair (l : Label) : LabelPair :=
  {| LabelPair_Name := Some (Label_Name l); LabelPair_Value := Some (Label_Value l) |}.

(** The values of the name labels of a label set, in order. *)
Definition name_values (lset : Labels) : list string :=
  Label_Value <$> filter (λ l, Label_Name l = MetricName) lset.

(** The labels other than the name label, in order. *)
Definition other_labels (lset : Labels) : Labels :=
  filter (λ l, Label_Name l ≠ MetricName) lset.

(** What the loop position says about the samples of the records read so
    far that have not gone through the loop body yet. *)
Definition settled (p : PC) (todo : list RefSample) : Prop :=
  match p with
  | Panicked _ => True
  | InSamples l => todo = l
  | _ => todo = []
  end.

(** A journal entry that ended in an [Append] records a call of
    [NewMetricFamily] that succeeded. *)
Definition sound_entry (sd : RefSample * Disposition) : Prop :=
  match sd.2 with
  | Emitted lset f =>
      ∃ mf, buildMetricFamily lset sd.1 = Some mf
            ∧ NewMetricFamily mf [NoTimestamp] (targetLabels lset) = Ok f
  | _ => True
  end.

(** The invariant of the transition system. *)
Record Inv (w : World X) (st : State X) : Prop := {
  inv_cancel :
    match pc st with
    | NotStarted | Panicked _ => True
    | _ => cancelTail (rdr st) = Some cancelCtx
    end;
  inv_appended : appended (effects st) = (emitted (journal st)).*2;
  inv_counted : ∀ name, counted name (effects st) = 0%nat;
  inv_sound : Forall sound_entry (journal st);
  inv_order :
    ∃ consumed todo,
      responses w = consumed ++ unread st
      ∧ (journal st).*1 ++ todo = wal_samples consumed
      ∧ settled (pc st) todo }.

(** With a [labelled] WAL no empty label set enters the cache. *)
Record InvLabelled (st : State X) : Prop := {
  inv_cache : ∀ ref e, cache st !! ref = Some e → entry_lset e ≠ [];
  inv_pending : ∀ l segment, pc st = InSeries l segment →
                Forall (λ s, RefSeries_Labels s ≠ []) l;
  inv_unread : Forall (λ r, Forall (λ s, RefSeries_Labels s ≠ []) (series_of_resp r))
                 (unread st) }.

(** The goroutine of [Run] has not moved between two states: only the
    cache and the cancellation may differ. *)
Definition same_run (st st' : State X) : Prop :=
  pc st' = pc st ∧ rdr st' = rdr st ∧ unread st' = unread st
  ∧ effects st' = effects st ∧ journal st' = journal st.

(** The failures that concern one record or one sample: a series or a
    samples record that does not decode (lines 71-75 and 80-84), and a
    sample whose metric family [NewMetricFamily] rejects (lines 118-122).
    [entry] is the log record the failure calls for and [next] the place
    where [Run] has to go on. *)
Definition local_failure (st : State X) (entry : Level * list (string * LogValue))
    (next : PC) : Prop :=
  (∃ rec segment rs err,
      pc st = AtNext ∧ ctxDone st = false
      ∧ unread st = Yield rec segment None :: rs
      ∧ decoder_Type rec = RecordSeries ∧ decoder_Series rec = Err err
      ∧ entry = (LevelError, [("error", LErr err)]) ∧ next = AtNext)
  ∨ (∃ rec segment rs err,
      pc st = AtNext ∧ ctxDone st = false
      ∧ unread st = Yield rec segment None :: rs
      ∧ decoder_Type rec = RecordSamples ∧ decoder_Samples rec = Err err
      ∧ entry = (LevelError, [("error", LErr err)]) ∧ next = AtNext)
  ∨ (∃ sample rest lset mf err,
      pc st = InSamples (sample :: rest)
      ∧ seriesCache_get (RefSample_Ref sample) (cache st) = Some lset
      ∧ buildMetricFamily lset sample = Some mf
      ∧ NewMetricFamily mf [NoTimestamp] (targetLabels lset) = Err err
      ∧ entry = (LevelWarn, [("msg", LStr "Cannot construct MetricFamily");
                             ("err", LErr err)])
      ∧ next = InSamples rest).

End Observations.

(** ** A concrete set of collaborators, for running the pipeline *)

(** A record that is identified with what the decoder makes of it. *)
Inductive tableRecord :=
| SeriesRecord (l : list RefSeries)
| SamplesRecord (l : list RefSample)
| BrokenSeriesRecord (e : error)
| BrokenSamplesRecord (e : error)
| TombstonesRecord
| InvalidRecord.

Definition table_Type (rec : tableRecord) : RecordType :=
  match rec with
  | SeriesRecord _ | BrokenSeriesRecord _ => RecordSeries
  | SamplesRecord _ | BrokenSamplesRecord _ => RecordSamples
  | TombstonesRecord => RecordTombstones
  | InvalidRecord => RecordInvalid
  end.

Definition table_Series (rec : tableRecord) : result (list RefSeries) :=
  match rec with
  | SeriesRecord l => Ok l
  | BrokenSeriesRecord e => Err e
  | _ => Err "not a series record"
  end.

Definition table_Samples (rec : tableRecord) : result (list RefSample) :=
  match rec with
  | SamplesRecord l => Ok l
  | BrokenSamplesRecord e => Err e
  | _ => Err "not a samples record"
  end.

(** Modelled from the spec: the struct [retrieval.MetricFamily] is
    declared outside [manager.go].  The outbound metric carries the name, the labels
    minus the name label, the value and the timestamp (all inside the
    protobuf message) and the reset timestamp; the target labels ride
    along for the later enrichment. *)
Record retrieval_MetricFamily := {
  MetricFamily_pb : dto_MetricFamily;
  MetricResetTimestampMs : list Z;
  TargetLabels : Labels }.

(** Modelled from the spec: [NewMetricFamily] is defined outside
    [manager.go].  Translation fails per sample, for example on a missing name
    label; otherwise the outbound metric is made of the three arguments. *)
Definition spec_NewMetricFamily (pb : dto_MetricFamily) (metricResetTimestampMs : list Z)
    (targetLabels : Labels) : result retrieval_MetricFamily :=
  match MetricFamily_Name pb with
  | None => Err "missing metric name label"
  | Some _ =>
      Ok {| MetricFamily_pb := pb;
            MetricResetTimestampMs := metricResetTimestampMs;
            TargetLabels := targetLabels |}
  end.

(** Modelled from the spec: the constant [NoTimestamp] is declared
    outside [manager.go]; it is a sentinel reset timestamp that stands for
    unknown or not tracked.  The smallest int64 is taken here; no
    statement depends on the choice. *)
Definition spec_NoTimestamp : Z := - 2 ^ 63.

Definition table : Externals :=
  {| record := tableRecord;
     decoder_Type := table_Type;
     decoder_Series := table_Series;
     decoder_Samples := table_Samples;
     MetricFamily := retrieval_MetricFamily;
     NewMetricFamily := spec_NewMetricFamily;
     NoTimestamp := spec_NoTimestamp |}.

(** Scenario S1 of the spec: the series [ref=7, {__name__:"x", a:"1"}]
    and the sample [(7, t=1000, v=3.5)]; 3.5 is 0x400C000000000000. *)
Definition lset_x : Labels :=
  [ {| Label_Name := "__name__"; Label_Value := "x" |};
    {| Label_Name := "a"; Label_Value := "1" |} ].

Definition series7 : RefSeries := {| RefSeries_Ref := 7; RefSeries_Labels := lset_x |}.

Definition sample7 : RefSample :=
  {| RefSample_Ref := 7; RefSample_T := 1000; RefSample_V := 0x400C000000000000 |}.

(** A sample of the same series whose value is a NaN with a payload. *)
Definition sample7_nan : RefSample :=
  {| RefSample_Ref := 7; RefSample_T := 2000; RefSample_V := float64_NaN |}.

(** A sample of a series that is declared nowhere. *)
Definition sample9 : RefSample :=
  {| RefSample_Ref := 9; RefSample_T := 1000; RefSample_V := 0 |}.

(** A series without the name label, and a sample of it. *)
Definition lset_anonymous : Labels := [ {| Label_Name := "a"; Label_Value := "1" |} ].

Definition series8 : RefSeries :=
  {| RefSeries_Ref := 8; RefSeries_Labels := lset_anonymous |}.

Definition sample8 : RefSample :=
  {| RefSample_Ref := 8; RefSample_T := 1000; RefSample_V := 0x400C000000000000 |}.

Definition world_of (rs : list (@Resp table)) : World table :=
  {| world_walDirectory := "data/wal"; tail_Tail := None; responses := rs |}.

(** S1: one segment, one declaration, one sample. *)
Definition world_S1 : World table :=
  world_of [ @Yield table (SeriesRecord [series7]) 0 None;
             @Yield table (SamplesRecord [sample7; sample7_nan]) 0 None ].

(** A sample whose ref was never declared, followed by a known one. *)
Definition world_unknown : World table :=
  world_of [ @Yield table (SeriesRecord [series7]) 0 None;
             @Yield table (SamplesRecord [sample9; sample7]) 0 None ].

(** A declaration without name label, a sample of it, then a known one. *)
Definition world_anonymous : World table :=
  world_of [ @Yield table (SeriesRecord [series7; series8]) 0 None;
             @Yield table (SamplesRecord [sample8; sample7]) 0 None ].

(** Records that do not decode, between good ones. *)
Definition world_broken : World table :=
  world_of [ @Yield table (SeriesRecord [series7]) 0 None;
             @Yield table (BrokenSeriesRecord "short series record") 0 None;
             @Yield table (BrokenSamplesRecord "short samples record") 0 None;
             @Yield table (SamplesRecord [sample7]) 0 None ].

(** A corrupt record after a good prefix, reported the way an iterator
    does: [Next()] is false and [Err()] holds the error. *)
Definition world_corrupt : World table :=
  world_of [ @Yield table (SeriesRecord [series7]) 0 None;
             @Yield table (SamplesRecord [sample7]) 0 None;
             @Halt table (Some "corruption in segment 0: unexpected checksum") ].

(** Two series whose samples alternate over three segments. *)
Definition series5 : RefSeries :=
  {| RefSeries_Ref := 5;
     RefSeries_Labels := [ {| Label_Name := "__name__"; Label_Value := "y" |} ] |}.

Definition sample5 : RefSample :=
  {| RefSample_Ref := 5; RefSample_T := 1000; RefSample_V := float64_posInf |}.

Definition sample5_late : RefSample :=
  {| RefSample_Ref := 5; RefSample_T := 3000; RefSample_V := float64_negInf |}.

Definition sample7_late : RefSample :=
  {| RefSample_Ref := 7; RefSample_T := 3000; RefSample_V := 0 |}.

Definition world_rotation : World table :=
  world_of [ @Yield table (SeriesRecord [series7; series5]) 0 None;
             @Yield table (SamplesRecord [sample7; sample5]) 0 None;
             @Yield table (SamplesRecord [sample7_nan]) 1 None;
             @Yield table (SamplesRecord [sample5_late; sample7_late]) 2 None ].

(** [n] consecutive steps of [Run]. *)
Definition runs (n : nat) : list Event := replicate n RunStep.

(** What S1 expects the appender to receive for [sample7]. *)
Definition f_sample7 : retrieval_MetricFamily :=
  {| MetricFamily_pb :=
       {| MetricFamily_Name := Some "x";
          MetricFamily_Help := None;
          MetricFamily_Type := Some MetricType_UNTYPED;
          MetricFamily_Metric :=
            [{| Metric_Label := [{| LabelPair_Name := Some "a"; LabelPair_Value := Some "1" |}];
                Metric_Gauge := None;
                Metric_Counter := None;
                Metric_Untyped := Some {| Untyped_Value := Some 0x400C000000000000 |};
                Metric_TimestampMs := Some 1000 |}] |};
     MetricResetTimestampMs := [spec_NoTimestamp];
     TargetLabels := lset_x |}.

(** The same for [sample7_nan]. *)
Definition f_sample7_nan : retrieval_MetricFamily :=
  {| MetricFamily_pb :=
       {| MetricFamily_Name := Some "x";
          MetricFamily_Help := None;
          MetricFamily_Type := Some MetricType_UNTYPED;
          MetricFamily_Metric :=
            [{| Metric_Label := [{| LabelPair_Name := Some "a"; LabelPair_Value := Some "1" |}];
                Metric_Gauge := None;
                Metric_Counter := None;
                Metric_Untyped := Some {| Untyped_Value := Some float64_NaN |};
                Metric_TimestampMs := Some 2000 |}] |};
     MetricResetTimestampMs := [spec_NoTimestamp];
     TargetLabels := lset_x |}.

(** ** The effects of one step

    What a transition adds to the effects and to the journal, and where
    it leaves [Run]: a summary of [step] that the accounting proofs go
    through. *)

Section Moves.
Context `{X : Externals}.

(** Line 47. *)
Definition log_Starting : Effect X :=
  Log LevelInfo [("msg", LStr "Starting Prometheus reader...")].

(** Line 128. *)
Definition log_Done : Effect X :=
  Log LevelInfo [("msg", LStr "Done processing WAL.")].

(** Lines 52, 73 and 82. *)
Definition log_error (err : error) : Effect X :=
  Log LevelError [("error", LErr err)].

(** The one effect a sample leaves behind, according to its disposition:
    the warning of line 88, the warning of line 120 or the call of
    line 123. *)
Definition trace_of (sd : RefSample * Disposition) : Effect X :=
  match sd.2 with
  | UnknownRef =>
      Log LevelWarn [("msg", LStr "Unknown series ref in sample");
                     ("sample", LSample sd.1)]
  | CannotConstruct err =>
      Log LevelWarn [("msg", LStr "Cannot construct MetricFamily"); ("err", LErr err)]
  | Emitted _ f => Append f
  end.

(** The effects that can be the trace of a sample: [Append] calls and
    log records at level warn. *)
Definition sample_traces (es : list (Effect X)) : list (Effect X) :=
  omap (λ e, match e with
             | Append _ => Some e
             | Log LevelWarn _ => Some e
             | _ => None
             end) es.

(** The key-value lists of the log records at level warn. *)
Definition warnings (es : list (Effect X)) : list (list (string * LogValue)) :=
  omap (λ e, match e with Log LevelWarn kv => Some kv | _ => None end) es.

(** The key-value lists of the log records at level error. *)
Definition errors_logged (es : list (Effect X)) : list (list (string * LogValue)) :=
  omap (λ e, match e with Log LevelError kv => Some kv | _ => None end) es.

(** The error of a record that [Run] dispatches and that does not
    decode (lines 71-75 and 80-84). *)
Definition decode_error (r : Resp) : list error :=
  match r with
  | Yield rec _ None =>
      match decoder_Type rec with
      | RecordSeries =>
          match decoder_Series rec with
          | Ok _ => []
          | Err err => [err]
          end
      | RecordSamples =>
          match decoder_Samples rec with
          | Ok _ => []
          | Err err => [err]
          end
      | _ => []
      end
  | _ => []
  end.

(** What [Run] logs at the loop head for an answer of the reader. *)
Definition resp_effects (r : Resp) : list (Effect X) :=
  match r with
  | Halt _ => [log_Done]
  | _ => log_error <$> decode_error r
  end.

(** [Run] moves inside its loop, or not at all. *)
Definition quiet_pc (p p' : PC) : Prop :=
  p' = p ∨ (in_loop p ∧ in_loop p').

Inductive moves (w : World X) (st st' : State X) : Prop :=
| moves_start :
    pc st = NotStarted → pc st' = Opening →
    effects st' = effects st ++ [log_Starting] →
    journal st' = journal st → unread st' = unread st →
    moves w st st'
| moves_open_failed err :
    pc st = Opening → tail_Tail w = Some err → pc st' = Returned (Some err) →
    effects st' = effects st ++ [log_error err] →
    journal st' = journal st → unread st' = unread st →
    moves w st st'
| moves_open :
    pc st = Opening → tail_Tail w = None → pc st' = AtNext →
    effects st' = effects st →
    journal st' = journal st → unread st' = unread st →
    moves w st st'
| moves_cancelled :
    pc st = AtNext → ctxDone st = true → ctxDone st' = true →
    pc st' = Returned None →
    effects st' = effects st ++ [log_Done] →
    journal st' = journal st → unread st' = unread st →
    moves w st st'
| moves_read r :
    pc st = AtNext → ctxDone st = false → unread st = r :: unread st' →
    effects st' = effects st ++ resp_effects r →
    journal st' = journal st →
    match r with
    | Halt _ => pc st' = Returned None
    | Yield _ _ (Some err) => pc st' = Returned (Some err)
    | Yield _ _ None => in_loop (pc st')
    end →
    moves w st st'
| moves_sample sample rest d :
    pc st = InSamples (sample :: rest) → pc st' = InSamples rest →
    effects st' = effects st ++ [trace_of (sample, d)] →
    journal st' = journal st ++ [(sample, d)] → unread st' = unread st →
    moves w st st'
| moves_make_panic sample rest :
    pc st = InSamples (sample :: rest) → pc st' = Panicked MakeSliceCap →
    seriesCache_get (RefSample_Ref sample) (cache st) = Some [] →
    effects st' = effects st →
    journal st' = journal st → unread st' = unread st →
    moves w st st'
| moves_nil_panic :
    pc st = NotStarted → pc st' = Panicked NilFuncCall →
    effects st' = effects st →
    journal st' = journal st → unread st' = unread st →
    moves w st st'
| moves_quiet :
    quiet_pc (pc st) (pc st') →
    effects st' = effects st →
    journal st' = journal st → unread st' = unread st →
    (ctxDone st = true → ctxDone st' = true) →
    moves w st st'.

(** The phases of a run as its lifecycle log records tell them apart:
    before line 47, between lines 47 and 128, and after line 128. *)
Inductive Phase := Idle | Working | Finished | Dead.

Definition phase (p : PC) : Phase :=
  match p with
  | NotStarted => Idle
  | Panicked NilFuncCall => Dead
  | Returned None => Finished
  | _ => Working
  end.

(** [Run] is over: it has returned or the process has died. *)
Definition is_over (p : PC) : Prop :=
  match p with
  | Returned _ | Panicked _ => True
  | _ => False
  end.

End Moves.

(** Reading a protobuf label pair back as a label; a pair with a nil
    field has no reading. *)
Definition label_of_pair (lp : LabelPair) : option Label :=
  match LabelPair_Name lp, LabelPair_Value lp with
  | Some name, Some value => Some {| Label_Name := name; Label_Value := value |}
  | _, _ => None
  end.

(** ** The WAL read in one go

    What the loop of lines 63-127 makes of a stretch of the WAL when
    nothing interferes: records in order, the cache filled by the series
    records and asked by the sample records. *)

Section Replay.
Context `{X : Externals}.

(** Lines 86-122 for one sample against a cache; [None] is the panic of
    line 96. *)
Definition dispose (c : seriesCache) (sample : RefSample) : option Disposition :=
  match seriesCache_get (RefSample_Ref sample) c with
  | None => Some UnknownRef
  | Some lset =>
      match buildMetricFamily lset sample with
      | None => None
      | Some metricFamily =>
          match NewMetricFamily metricFamily [NoTimestamp] (targetLabels lset) with
          | Err err => Some (CannotConstruct err)
          | Ok f => Some (Emitted lset f)
          end
      end
  end.

(** The loop of line 85 over a batch; the flag tells whether the loop got
    to the end of the batch. *)
Fixpoint translate_batch (c : seriesCache) (recordSamples : list RefSample)
    : list (RefSample * Disposition) * bool :=
  match recordSamples with
  | [] => ([], true)
  | sample :: rest =>
      match dispose c sample with
      | None => ([], false)
      | Some d => ((sample, d) :: (translate_batch c rest).1, (translate_batch c rest).2)
      end
  end.

(** The loop of line 76 over the declarations of a record. *)
Definition declare (segment : Z) (c : seriesCache) (recordSeries : list RefSeries)
    : seriesCache :=
  foldl (λ c series,
           seriesCache_set (RefSeries_Ref series) (RefSeries_Labels series) segment c)
        c recordSeries.

(** The samples of a stretch of the WAL with their dispositions, up to
    the answer that ends the loop. *)
Fixpoint replay (c : seriesCache) (rs : list Resp) : list (RefSample * Disposition) :=
  match rs with
  | Yield rec segment None :: rs' =>
      match decoder_Type rec with
      | RecordSeries =>
          match decoder_Series rec with
          | Ok recordSeries => replay (declare segment c recordSeries) rs'
          | Err _ => replay c rs'
          end
      | RecordSamples =>
          match decoder_Samples rec with
          | Ok recordSamples =>
              (translate_batch c recordSamples).1
              ++ (if (translate_batch c recordSamples).2 then replay c rs' else [])
          | Err _ => replay c rs'
          end
      | _ => replay c rs'
      end
  | _ => []
  end.

(** What is left of the replay at a position of [Run]. *)
Definition replay_rest (st : State X) : option (list (RefSample * Disposition)) :=
  match pc st with
  | NotStarted | Opening => Some (replay ∅ (unread st))
  | AtNext => Some (replay (cache st) (unread st))
  | InSeries l segment => Some (replay (declare segment (cache st) l) (unread st))
  | InSamples l =>
      Some ((translate_batch (cache st) l).1
            ++ (if (translate_batch (cache st) l).2
                then replay (cache st) (unread st) else []))
  | _ => None
  end.

End Replay.

(** ** More runs *)

(** [tail.Tail] fails: the WAL directory cannot be opened. *)
Definition world_tail_failure : World table :=
  {| world_walDirectory := "data/wal";
     tail_Tail := Some "open data/wal: no such file or directory";
     responses := [ @Yield table (SeriesRecord [series7]) 0 None;
                    @Yield table (SamplesRecord [sample7]) 0 None ] |}.

(** A reader that reports an error together with a record: [Next()] is
    true and [Err()] is not nil. *)
Definition world_inner_error : World table :=
  world_of [ @Yield table (SeriesRecord [series7]) 0 None;
             @Yield table (SamplesRecord [sample7]) 0 (Some "read error");
             @Yield table (SamplesRecord [sample7_nan]) 0 None ].

(** A declaration with no label at all, and a sample of it. *)
Definition series6 : RefSeries := {| RefSeries_Ref := 6; RefSeries_Labels := [] |}.

Definition sample6 : RefSample :=
  {| RefSample_Ref := 6; RefSample_T := 1000; RefSample_V := 0 |}.

Definition world_unlabelled : World table :=
  world_of [ @Yield table (SeriesRecord [series7; series6]) 0 None;
             @Yield table (SamplesRecord [sample7; sample6; sample7_nan]) 0 None ].

(** A sample that comes before the declaration of its series. *)
Definition world_early : World table :=
  world_of [ @Yield table (SamplesRecord [sample7]) 0 None;
             @Yield table (SeriesRecord [series7]) 0 None;
             @Yield table (SamplesRecord [sample7_nan]) 0 None ].

(** ** [main.go]: waiting for Prometheus (lines 316-339)

    [waitForPrometheus] loops over a [select] on [ctx.Done()] and on the
    ticker; what it does is a function of the sequence of cases the
    [select] takes, each tick coming with the outcome of [http.Get]. *)

(** The fields of [http.Response] the function reads. *)
Record http_Response := { StatusCode : Z; Status : string }.

Inductive Select :=
| ctx_Done
| tick_C (get : result http_Response).

(** Either the loop has taken all the cases given and still waits, or the
    function has returned, leaving the rest of the cases untaken. *)
Inductive Waited :=
| StillWaiting
| HasReturned (untaken : list Select).

(** Go's [/] on integers truncates towards zero: [Z.quot]. *)
Fixpoint waitForPrometheus (selects : list Select)
    : list (Level * list (string * LogValue)) * Waited :=
  match selects with
  | [] => ([], StillWaiting)
  | ctx_Done :: rest => ([], HasReturned rest)
  | tick_C (Err err) :: rest =>
      let '(logs, end_) := waitForPrometheus rest in
      ((LevelWarn, [("msg", LStr "query Prometheus readiness"); ("err", LErr err)]) :: logs,
       end_)
  | tick_C (Ok resp) :: rest =>
      if decide (Z.quot (StatusCode resp) 100 = 2) then ([], HasReturned rest)
      else
        let '(logs, end_) := waitForPrometheus rest in
        ((LevelWarn, [("msg", LStr "Prometheus not ready");
                      ("status", LStr (Status resp))]) :: logs,
         end_)
  end.

(** The cases that end the wait: cancellation, and a tick whose request
    is answered with a status from 200 to 299. *)
Definition ends_wait (s : Select) : Prop :=
  match s with
  | ctx_Done => True
  | tick_C (Ok resp) => 200 ≤ StatusCode resp ≤ 299
  | tick_C (Err _) => False
  end.

(** The warning a tick that does not end the wait is logged with. *)
Definition wait_warning (s : Select) : list (Level * list (string * LogValue)) :=
  match s with
  | ctx_Done => []
  | tick_C (Err err) =>
      [(LevelWarn, [("msg", LStr "query Prometheus readiness"); ("err", LErr err)])]
  | tick_C (Ok resp) =>
      [(LevelWarn, [("msg", LStr "Prometheus not ready"); ("status", LStr (Status resp))])]
  end.

(** * Proofs *)

(** ** The translation of a label set *)

Lemma copyLabels_unfold (lset : Labels) (name : option string) (label : list LabelPair) :
  copyLabels lset name label
  = (match last (name_values lset) with Some v => Some v | None => name end,
     label ++ (label_pair <$> other_labels lset)).
Proof.
  revert name label.
  induction lset as [|l lset IH]; intros name label; cbn [copyLabels].
  - by rewrite app_nil_r.
  - unfold name_values, other_labels in *.
    rewrite !filter_cons.
    destruct (decide (Label_Name l = MetricName)) as [Heq|Hne].
    + rewrite decide_False by tauto.
      rewrite IH. f_equal. rewrite fmap_cons, last_cons.
      by destruct (last _).
    + rewrite decide_True by done.
      rewrite IH, fmap_cons, <- app_assoc. done.
Qed.

Lemma buildMetricFamily_Some (lset : Labels) (sample : RefSample) :
  lset ≠ [] →
  buildMetricFamily lset sample
  = Some {| MetricFamily_Name := last (name_values lset);
            MetricFamily_Help := None;
            MetricFamily_Type := Some MetricType_UNTYPED;
            MetricFamily_Metric :=
              [{| Metric_Label := label_pair <$> other_labels lset;
                  Metric_Gauge := None;
                  Metric_Counter := None;
                  Metric_Untyped := Some {| Untyped_Value := Some (RefSample_V sample) |};
                  Metric_TimestampMs := Some (RefSample_T sample) |}] |}.
Proof.
  intros Hne. unfold buildMetricFamily, make_LabelPairs.
  destruct lset as [|l lset]; [done|].
  rewrite decide_False by (simpl; lia).
  rewrite copyLabels_unfold. simpl app.
  by destruct (last _).
Qed.

Lemma buildMetricFamily_None (lset : Labels) (sample : RefSample) :
  buildMetricFamily lset sample = None ↔ lset = [].
Proof.
  split.
  - destruct lset as [|l lset]; [done|].
    by rewrite buildMetricFamily_Some.
  - by intros ->.
Qed.

Lemma targetLabels_id (lset : Labels) : targetLabels lset = lset.
Proof.
  unfold targetLabels. induction lset as [|[n v] lset IH]; [done|].
  rewrite fmap_cons. simpl. by f_equal.
Qed.

(** ** Reading effects and journals piecewise *)

Section Reading.
Context `{X : Externals}.

Lemma appended_snoc_Append (es : list (Effect X)) (f : MetricFamily) :
  appended (es ++ [Append f]) = appended es ++ [f].
Proof. unfold appended. by rewrite omap_app. Qed.

Lemma appended_snoc_Log (es : list (Effect X)) lvl kv :
  appended (es ++ [Log lvl kv]) = appended es.
Proof. unfold appended. rewrite omap_app. simpl. by rewrite app_nil_r. Qed.

Lemma counted_snoc_Append name (es : list (Effect X)) (f : MetricFamily) :
  counted name (es ++ [Append f]) = counted name es.
Proof. unfold counted. rewrite omap_app. simpl. by rewrite app_nil_r. Qed.

Lemma counted_snoc_Log name (es : list (Effect X)) lvl kv :
  counted name (es ++ [Log lvl kv]) = counted name es.
Proof. unfold counted. rewrite omap_app. simpl. by rewrite app_nil_r. Qed.

Lemma emitted_snoc_Emitted (j : list (RefSample * Disposition)) s lset f :
  emitted (j ++ [(s, Emitted lset f)]) = emitted j ++ [(s, f)].
Proof. unfold emitted. by rewrite omap_app. Qed.

Lemma emitted_snoc_dropped (j : list (RefSample * Disposition)) s d :
  (∀ lset f, d ≠ Emitted lset f) →
  emitted (j ++ [(s, d)]) = emitted j.
Proof.
  intros Hd. unfold emitted. rewrite omap_app. simpl.
  destruct d; simpl; rewrite ?app_nil_r; try done.
  by destruct (Hd lset f).
Qed.

Lemma wal_samples_app (rs1 rs2 : list Resp) :
  wal_samples (rs1 ++ rs2) = wal_samples rs1 ++ wal_samples rs2.
Proof. unfold wal_samples. apply bind_app. Qed.

Lemma wal_samples_snoc (rs : list Resp) (r : Resp) :
  wal_samples (rs ++ [r]) = wal_samples rs ++ samples_of_resp r.
Proof. rewrite wal_samples_app. unfold wal_samples. simpl. by rewrite app_nil_r. Qed.

Lemma filter_fst_of_ref ref (j : list (RefSample * Disposition)) :
  (of_ref ref j).*1 = filter (λ s, RefSample_Ref s = ref) j.*1.
Proof.
  unfold of_ref. induction j as [|[s d] j IH]; [done|].
  rewrite fmap_cons, !filter_cons. simpl.
  destruct (decide (RefSample_Ref s = ref)); rewrite ?fmap_cons, IH; done.
Qed.

Lemma emitted_sublist (j : list (RefSample * Disposition)) :
  (emitted j).*1 `sublist_of` j.*1.
Proof.
  unfold emitted. induction j as [|[s d] j IH]; [done|].
  simpl. destruct d; simpl; by constructor.
Qed.

Lemma emitted_cons s d (j : list (RefSample * Disposition)) :
  emitted ((s, d) :: j)
  = match d with Emitted _ f => [(s, f)] | _ => [] end ++ emitted j.
Proof. by destruct d. Qed.

Lemma emitted_of_ref ref (j : list (RefSample * Disposition)) :
  emitted (of_ref ref j) = filter (λ sf, RefSample_Ref sf.1 = ref) (emitted j).
Proof.
  unfold of_ref. induction j as [|[s d] j IH]; [done|].
  rewrite filter_cons, emitted_cons, filter_app, <- IH.
  destruct (decide (RefSample_Ref (s, d).1 = ref)) as [Heq|Hne].
  - rewrite emitted_cons. f_equal. destruct d; try done.
    by rewrite filter_cons_True.
  - destruct d; try done. by rewrite filter_cons_False.
Qed.

End Reading.

(** ** The invariant holds in every reachable state *)

Section Invariant.
Context `{X : Externals} (w : World X).

Lemma Inv_init : Inv w (init w).
Proof.
  split; simpl; try done.
  exists [], []. by rewrite app_nil_l.
Qed.

Lemma Inv_gc smin st : Inv w st → Inv w (gc_step smin st).
Proof.
  intros [Hc Ha Hn Hs Ho]. unfold gc_step.
  destruct Ho as (consumed & todo & Hr & Hj & Hset).
  destruct (pc st) eqn:Hpc; try (destruct (ctxDone st));
    (split; simpl; rewrite ?Hpc; try done;
     exists consumed, todo; simpl; by rewrite ?Hpc).
Qed.

Lemma Inv_Stop st : Inv w st → Inv w (Stop st).
Proof.
  intros [Hc Ha Hn Hs Ho]. unfold Stop.
  destruct Ho as (consumed & todo & Hr & Hj & Hset).
  destruct (pc st) eqn:Hpc;
    [destruct (cancelTail (rdr st)) as [[]|] eqn:Hct .. | ];
    (split; simpl; rewrite ?Hpc; try done;
     exists consumed, todo; simpl; by rewrite ?Hpc).
Qed.

Lemma Inv_Run_step st : Inv w st → Inv w (Run_step w st).
Proof.
  intros [Hc Ha Hn Hs Ho].
  destruct Ho as (consumed & todo & Hr & Hj & Hset).
  unfold Run_step. destruct (pc st) as [| | |l seg|l|e|why] eqn:Hpc; simpl in Hset.
  - (* Run is called *)
    split; simpl; try done.
    + by rewrite appended_snoc_Log.
    + intros name. by rewrite counted_snoc_Log.
    + eauto 6.
  - (* tail.Tail *)
    unfold Run_open. destruct (tail_Tail w) as [err|]; split; simpl; try done.
    + by rewrite appended_snoc_Log.
    + intros name. by rewrite counted_snoc_Log.
    + eauto 6.
    + eauto 6.
  - (* reader.Next() *)
    subst todo. rewrite app_nil_r in Hj. unfold Run_next, reader_Next.
    destruct (ctxDone st).
    { split; simpl; try done.
      - by rewrite appended_snoc_Log.
      - intros name. by rewrite counted_snoc_Log.
      - exists consumed, []. by rewrite app_nil_r. }
    destruct (unread st) as [|r unread'] eqn:Hun.
    { split; rewrite ?Hpc; try done.
      exists consumed, []. rewrite Hun, !app_nil_r. by rewrite app_nil_r in Hr. }
    assert (Hr' : responses w = (consumed ++ [r]) ++ unread')
      by (by rewrite <- app_assoc).
    pose proof (wal_samples_snoc consumed r) as Hw.
    destruct r as [rec seg [err|]|err]; simpl in Hw; rewrite app_nil_r in Hw || idtac.
    + split; simpl; try done.
      exists (consumed ++ [Yield rec seg (Some err)]), [].
      by rewrite Hw, app_nil_r.
    + unfold Run_dispatch.
      destruct (decoder_Type rec).
      * rewrite app_nil_r in Hw. split; simpl; try done.
        exists (consumed ++ [Yield rec seg None]), []. by rewrite Hw, app_nil_r.
      * rewrite app_nil_r in Hw.
        destruct (decoder_Series rec) as [l|err]; split; simpl; try done.
        -- exists (consumed ++ [Yield rec seg None]), []. by rewrite Hw, app_nil_r.
        -- by rewrite appended_snoc_Log.
        -- intros name. by rewrite counted_snoc_Log.
        -- exists (consumed ++ [Yield rec seg None]), []. by rewrite Hw, app_nil_r.
      * destruct (decoder_Samples rec) as [l|err]; split; simpl; try done.
        -- exists (consumed ++ [Yield rec seg None]), l. by rewrite Hw, Hj.
        -- by rewrite appended_snoc_Log.
        -- intros name. by rewrite counted_snoc_Log.
        -- exists (consumed ++ [Yield rec seg None]), [].
           by rewrite Hw, !app_nil_r.
      * rewrite app_nil_r in Hw. split; simpl; try done.
        exists (consumed ++ [Yield rec seg None]), []. by rewrite Hw, app_nil_r.
    + split; simpl; try done.
      * by rewrite appended_snoc_Log.
      * intros name. by rewrite counted_snoc_Log.
      * exists (consumed ++ [Halt err]), []. by rewrite Hw, app_nil_r.
  - (* seriesCache.set *)
    subst todo. destruct l as [|series rest]; split; simpl; try done; eauto 6.
  - (* one sample *)
    subst todo. destruct l as [|sample rest].
    { split; simpl; try done. exists consumed, []. by rewrite <- Hj. }
    unfold Run_sample.
    destruct (seriesCache_get _ _) as [lset|].
    + destruct (buildMetricFamily lset sample) as [mf|] eqn:Hmf.
      * destruct (NewMetricFamily mf _ _) as [f|err] eqn:Hnew; split; simpl; try done.
        -- by rewrite appended_snoc_Append, emitted_snoc_Emitted, fmap_app, Ha.
        -- intros name. by rewrite counted_snoc_Append.
        -- apply Forall_app; split; [done|]. constructor; [|done].
           unfold sound_entry. simpl. eauto.
        -- exists consumed, rest. by rewrite fmap_app, <- app_assoc.
        -- by rewrite appended_snoc_Log, emitted_snoc_dropped.
        -- intros name. by rewrite counted_snoc_Log.
        -- apply Forall_app; split; [done|]. by constructor.
        -- exists consumed, rest. by rewrite fmap_app, <- app_assoc.
      * split; simpl; try done. eauto 6.
    + split; simpl; try done.
      * by rewrite appended_snoc_Log, emitted_snoc_dropped.
      * intros name. by rewrite counted_snoc_Log.
      * apply Forall_app; split; [done|]. by constructor.
      * exists consumed, rest. by rewrite fmap_app, <- app_assoc.
  - split; rewrite ?Hpc; try done. exists consumed, todo. by rewrite ?Hpc.
  - split; rewrite ?Hpc; try done. exists consumed, todo. by rewrite ?Hpc.
Qed.

Lemma Inv_step ev st : Inv w st → Inv w (step w ev st).
Proof.
  destruct ev; simpl; [apply Inv_Run_step|apply Inv_gc|apply Inv_Stop].
Qed.

Lemma Inv_exec evs st : Inv w st → Inv w (exec w evs st).
Proof.
  revert st. induction evs as [|ev evs IH]; intros st Hst; [done|].
  simpl. apply IH. by apply Inv_step.
Qed.

Lemma Inv_reachable evs : Inv w (exec w evs (init w)).
Proof. apply Inv_exec, Inv_init. Qed.

End Invariant.

(** ** The other goroutines do not move [Run] *)

Section Environment.
Context `{X : Externals} (w : World X).

Lemma same_run_refl (st : State X) : same_run st st.
Proof. by repeat split. Qed.

Lemma same_run_trans (st1 st2 st3 : State X) :
  same_run st1 st2 → same_run st2 st3 → same_run st1 st3.
Proof.
  intros (?&?&?&?&?) (?&?&?&?&?). repeat split; congruence.
Qed.

Lemma gc_same_run smin (st : State X) : same_run st (gc_step smin st).
Proof.
  unfold gc_step. destruct (pc st); try apply same_run_refl;
    destruct (ctxDone st); by repeat split.
Qed.


Lemma Stop_started (st : State X) :
  cancelTail (rdr st) = Some cancelCtx → (∀ why, pc st ≠ Panicked why) →
  Stop st = cancel st.
Proof.
  intros Hc Hp. unfold Stop. rewrite Hc.
  destruct (pc st); try done. by destruct (Hp why).
Qed.

Lemma Stop_in_loop (st : State X) :
  Inv w st → in_loop (pc st) → Stop st = cancel st.
Proof.
  intros [Hc _ _ _ _] Hl. apply Stop_started.
  - by destruct (pc st).
  - intros why Hw. by rewrite Hw in Hl.
Qed.

Lemma env_step_same_run ev (st : State X) :
  Inv w st → in_loop (pc st) → is_env ev → same_run st (step w ev st).
Proof.
  intros Hinv Hl Hev. destruct ev as [|smin|]; simpl.
  - by destruct Hev.
  - apply gc_same_run.
  - rewrite (Stop_in_loop _ Hinv Hl). by repeat split.
Qed.

Lemma env_exec_same_run envs (st : State X) :
  Inv w st → in_loop (pc st) → Forall is_env envs → same_run st (exec w envs st).
Proof.
  revert st. induction envs as [|ev envs IH]; intros st Hinv Hl Henv.
  - apply same_run_refl.
  - apply Forall_cons in Henv as [Hev Henv]. simpl.
    pose proof (env_step_same_run ev st Hinv Hl Hev) as Hs.
    eapply same_run_trans; [exact Hs|].
    apply IH; [by apply Inv_step| |done].
    destruct Hs as (-> & _). done.
Qed.

End Environment.

(** ** A labelled WAL never trips [make] *)

Section Labelled.
Context `{X : Externals} (w : World X).

Lemma InvLabelled_init : labelled w → InvLabelled (init w).
Proof. intros Hw. split; simpl; try done. Qed.

Lemma seriesCache_set_labelled ref lset segment (c : seriesCache) :
  lset ≠ [] →
  (∀ r e, c !! r = Some e → entry_lset e ≠ []) →
  ∀ r e, seriesCache_set ref lset segment c !! r = Some e → entry_lset e ≠ [].
Proof.
  intros Hl Hc r e. unfold seriesCache_set.
  destruct (c !! ref) as [e0|]; rewrite lookup_insert; case_decide;
    try (intros [= <-]; done); apply Hc.
Qed.

Lemma seriesCache_gc_labelled smin (c : seriesCache) :
  (∀ r e, c !! r = Some e → entry_lset e ≠ []) →
  ∀ r e, seriesCache_gc smin c !! r = Some e → entry_lset e ≠ [].
Proof.
  intros Hc r e. unfold seriesCache_gc.
  rewrite map_lookup_filter_Some. intros [Hr _]. by eapply Hc.
Qed.

Lemma InvLabelled_Run_step st : InvLabelled st → InvLabelled (Run_step w st).
Proof.
  intros [Hc Hp Hu]. unfold Run_step.
  destruct (pc st) as [| | |l seg|l|e|why] eqn:Hpc.
  - split; simpl; try done.
  - unfold Run_open. destruct (tail_Tail w); split; simpl; try done.
  - unfold Run_next, reader_Next. destruct (ctxDone st).
    { split; simpl; try done. }
    destruct (unread st) as [|r unread'] eqn:Hun.
    { split; rewrite ?Hpc, ?Hun; try done. }
    apply Forall_cons in Hu as [Hr Hu].
    destruct r as [rec seg [err|]|err]; try (split; simpl; done).
    unfold Run_dispatch. simpl in Hr.
    destruct (decoder_Type rec).
    + split; simpl; done.
    + destruct (decoder_Series rec) as [l|err]; split; simpl; try done.
      intros l' seg' [= <- <-]. done.
    + destruct (decoder_Samples rec) as [l|err]; split; simpl; done.
    + split; simpl; done.
  - specialize (Hp l seg eq_refl).
    destruct l as [|series rest]; [split; simpl; done|].
    apply Forall_cons in Hp as [Hs Hrest].
    split; simpl; try done.
    + by apply seriesCache_set_labelled.
    + intros l' seg' [= <- <-]. done.
  - destruct l as [|sample rest]; [split; simpl; done|].
    unfold Run_sample. destruct (seriesCache_get _ _) as [lset|].
    + destruct (buildMetricFamily lset sample) as [mf|]; [|split; simpl; done].
      destruct (NewMetricFamily _ _ _); split; simpl; done.
    + split; simpl; done.
  - split; rewrite ?Hpc; done.
  - split; rewrite ?Hpc; done.
Qed.

Lemma InvLabelled_step ev st : InvLabelled st → InvLabelled (step w ev st).
Proof.
  destruct ev as [|smin|]; simpl.
  - apply InvLabelled_Run_step.
  - intros [Hc Hp Hu]. unfold gc_step.
    destruct (pc st) eqn:Hpc; try (destruct (ctxDone st));
      split; simpl; rewrite ?Hpc; try done;
      by apply seriesCache_gc_labelled.
  - intros [Hc Hp Hu]. unfold Stop.
    destruct (pc st) eqn:Hpc;
      [destruct (cancelTail (rdr st)) as [[]|] .. | ];
      split; simpl; rewrite ?Hpc; done.
Qed.

Lemma InvLabelled_exec evs st : InvLabelled st → InvLabelled (exec w evs st).
Proof.
  revert st. induction evs as [|ev evs IH]; intros st Hst; [done|].
  simpl. apply IH. by apply InvLabelled_step.
Qed.


End Labelled.

(** ** After cancellation [Run] leaves its loop *)

Section Cancellation.
Context `{X : Externals} (w : World X).

Lemma exec_app evs1 evs2 (st : State X) :
  exec w (evs1 ++ evs2) st = exec w evs2 (exec w evs1 st).
Proof. unfold exec. apply foldl_app. Qed.

Lemma run_steps_cons_RunStep evs : run_steps (RunStep :: evs) = S (run_steps evs).
Proof. unfold run_steps. by rewrite filter_cons_True. Qed.


Lemma run_steps_runs n : run_steps (runs n) = n.
Proof.
  induction n as [|n IH]; [done|].
  change (runs (S n)) with (RunStep :: runs n).
  by rewrite run_steps_cons_RunStep, IH.
Qed.



End Cancellation.

(** ** Before [Run] is called *)

Section Idle.
Context `{X : Externals} (w : World X).

Lemma step_to_NotStarted ev (st : State X) :
  pc (step w ev st) = NotStarted → pc st = NotStarted ∧ rdr (step w ev st) = rdr st.
Proof.
  destruct ev as [|smin|]; simpl.
  - unfold Run_step. destruct (pc st) as [| | |l seg|l|e|why] eqn:Hpc; simpl; try done.
    + unfold Run_open. by destruct (tail_Tail w).
    + unfold Run_next. destruct (reader_Next _ _) as [[[rec seg [err|]|err] rs]|];
        simpl; try done; [|by rewrite Hpc].
      unfold Run_dispatch. destruct (decoder_Type rec); simpl; try done.
      * by destruct (decoder_Series rec).
      * by destruct (decoder_Samples rec).
    + by destruct l.
    + destruct l as [|sample rest]; simpl; [done|]. unfold Run_sample.
      destruct (seriesCache_get _ _); simpl; [|done].
      destruct (buildMetricFamily _ _); simpl; [|done].
      by destruct (NewMetricFamily _ _ _).
    + by rewrite Hpc.
    + by rewrite Hpc.
  - unfold gc_step.
    destruct (pc st) eqn:Hpc; try (destruct (ctxDone st)); simpl; rewrite ?Hpc; done.
  - unfold Stop.
    destruct (pc st) eqn:Hpc; try (destruct (cancelTail (rdr st)) as [[]|]);
      simpl; rewrite ?Hpc; done.
Qed.

Lemma NotStarted_no_cancel evs :
  pc (exec w evs (init w)) = NotStarted → cancelTail (rdr (exec w evs (init w))) = None.
Proof.
  induction evs as [|ev evs IH] using rev_ind; [done|].
  rewrite exec_app. simpl. intros Hpc.
  apply step_to_NotStarted in Hpc as [Hpc ->]. by apply IH.
Qed.

Lemma env_only_idle evs :
  RunStep ∉ evs →
  rdr (exec w evs (init w)) = rdr (init w)
  ∧ (pc (exec w evs (init w)) = NotStarted
     ∨ pc (exec w evs (init w)) = Panicked NilFuncCall).
Proof.
  induction evs as [|ev evs IH] using rev_ind; intros Hno; [by auto|].
  rewrite exec_app. simpl.
  apply not_elem_of_app in Hno as [Hno Hev].
  destruct (IH Hno) as [Hr Hpc].
  destruct ev as [|smin|]; simpl.
  - destruct Hev. by left.
  - unfold gc_step. destruct Hpc as [Hpc|Hpc]; rewrite Hpc; [|by auto].
    destruct (ctxDone _); simpl; auto.
  - unfold Stop. destruct Hpc as [Hpc|Hpc]; rewrite Hpc; [|by auto].
    rewrite Hr. simpl. auto.
Qed.

End Idle.

(** * Properties of the pipeline *)

(** ** The loop head *)

Section LoopHead.
Context `{X : Externals} (w : World X).

(** Lines 64-66: an answer of the reader that comes with [Next()] true
    and a non-nil [Err()] makes [Run] return that error. *)
Lemma Run_returns_error_inside_loop (st : State X) rec segment err rs :
  pc st = AtNext → ctxDone st = false →
  unread st = Yield rec segment (Some err) :: rs →
  pc (step w RunStep st) = Returned (Some err)
  ∧ effects (step w RunStep st) = effects st.
Proof.
  intros Hpc Hd Hun. simpl. unfold Run_step, Run_next, reader_Next.
  by rewrite Hpc, Hd, Hun.
Qed.

(** Lines 127-129: whatever [Err()] holds when [Next()] is false, [Run]
    logs that it is done and returns nil. *)
Lemma Run_returns_nil_after_loop (st : State X) err rs :
  pc st = AtNext → ctxDone st = false →
  unread st = Halt err :: rs →
  pc (step w RunStep st) = Returned None
  ∧ effects (step w RunStep st)
    = effects st ++ [Log LevelInfo [("msg", LStr "Done processing WAL.")]].
Proof.
  intros Hpc Hd Hun. simpl. unfold Run_step, Run_next, reader_Next.
  by rewrite Hpc, Hd, Hun.
Qed.

End LoopHead.

(** C3 (not met by the code).  A reader that hits a corrupt
    record reports it the way an iterator does: [Next()] is false and
    [Err()] holds the error.  On such a WAL, after a declaration and a
    sample that are processed normally, [Run] leaves the loop, logs
    "Done processing WAL." and returns nil: the corruption error is never
    looked at. *)
Theorem Run_returns_nil_on_corrupt_record :
  let st := exec world_corrupt (runs 9) (init world_corrupt) in
  pc st = Returned None
  ∧ unread st = []
  ∧ appended (effects st) = [f_sample7]
  ∧ last (effects st) = Some (Log LevelInfo [("msg", LStr "Done processing WAL.")]).
Proof. vm_compute. done. Qed.

(** ** Cancellation *)

(** C10.  [cancelTail] is assigned on line 49 and nowhere else.  As long
    as no step of [Run] has been taken the field is nil and a call of
    [Stop] panics on the nil func value; once [Run] has started (and the
    process has not died) the field is set and [Stop] only cancels the
    context. *)
Theorem Stop_before_Run_panics `{X : Externals} (w : World X) (evs : list Event) :
  let st := exec w evs (init w) in
  (RunStep ∉ evs →
   cancelTail (rdr st) = None ∧ pc (Stop st) = Panicked NilFuncCall)
  ∧ (pc st ≠ NotStarted → (∀ why, pc st ≠ Panicked why) →
     cancelTail (rdr st) = Some cancelCtx ∧ Stop st = cancel st).
Proof.
  intros st. split.
  - intros Hno. destruct (env_only_idle w evs Hno) as [Hr Hpc]. fold st in Hr, Hpc.
    split; [by rewrite Hr|]. unfold Stop.
    destruct Hpc as [Hpc|Hpc]; rewrite Hpc; [|done]. by rewrite Hr.
  - intros Hstarted Halive.
    destruct (Inv_reachable w evs) as [Hc _ _ _ _]. fold st in Hc.
    assert (Hct : cancelTail (rdr st) = Some cancelCtx).
    { destruct (pc st) as [| | |l seg|l|e|why]; try done. by destruct (Halive why). }
    split; [done|]. by apply Stop_started.
Qed.

Lemma Stop_before_Run_panics_witness :
  ((RunStep ∉ [GC 0])
   ∧ cancelTail (rdr (exec world_S1 [GC 0] (init world_S1))) = None
   ∧ pc (Stop (exec world_S1 [GC 0] (init world_S1))) = Panicked NilFuncCall)
  ∧ (pc (exec world_S1 (runs 3) (init world_S1)) ≠ NotStarted
     ∧ (∀ why, pc (exec world_S1 (runs 3) (init world_S1)) ≠ Panicked why)
     ∧ cancelTail (rdr (exec world_S1 (runs 3) (init world_S1))) = Some cancelCtx
     ∧ Stop (exec world_S1 (runs 3) (init world_S1))
       = cancel (exec world_S1 (runs 3) (init world_S1))).
Proof.
  assert (H1 : RunStep ∉ [GC 0]).
  { intros H. apply list_elem_of_singleton in H. discriminate. }
  assert (H2 : pc (exec world_S1 (runs 3) (init world_S1)) ≠ NotStarted).
  { vm_compute. discriminate. }
  assert (H3 : ∀ why, pc (exec world_S1 (runs 3) (init world_S1)) ≠ Panicked why).
  { intros why. vm_compute. discriminate. }
  split.
  - exact (conj H1 (proj1 (Stop_before_Run_panics world_S1 [GC 0]) H1)).
  - exact (conj H2 (conj H3 (proj2 (Stop_before_Run_panics world_S1 (runs 3)) H2 H3))).
Defined.

(** ** The loop body for one sample *)

Section LoopBody.
Context `{X : Externals} (w : World X).

(** Between the moment a sample record is decoded and the moment [Run]
    gets to one of its samples, the other goroutines leave [Run]'s
    position, its effects and its journal alone. *)
Lemma before_sample evs envs sample rest :
  pc (exec w evs (init w)) = InSamples (sample :: rest) →
  Forall is_env envs →
  same_run (exec w evs (init w)) (exec w (evs ++ envs) (init w)).
Proof.
  intros Hpc Henv. rewrite exec_app.
  apply env_exec_same_run; [apply Inv_reachable| |done]. by rewrite Hpc.
Qed.

Lemma Run_sample_unknown (st : State X) sample rest :
  pc st = InSamples (sample :: rest) →
  seriesCache_get (RefSample_Ref sample) (cache st) = None →
  step w RunStep st
  = goto (InSamples rest)
      (note sample UnknownRef
         (emit (Log LevelWarn [("msg", LStr "Unknown series ref in sample");
                               ("sample", LSample sample)]) st)).
Proof.
  intros Hpc Hget. simpl. unfold Run_step, Run_sample. by rewrite Hpc, Hget.
Qed.

Lemma Run_sample_emitted (st : State X) sample rest lset mf f :
  pc st = InSamples (sample :: rest) →
  seriesCache_get (RefSample_Ref sample) (cache st) = Some lset →
  buildMetricFamily lset sample = Some mf →
  NewMetricFamily mf [NoTimestamp] (targetLabels lset) = Ok f →
  step w RunStep st
  = goto (InSamples rest) (note sample (Emitted lset f) (emit (Append f) st)).
Proof.
  intros Hpc Hget Hmf Hnew. simpl. unfold Run_step, Run_sample.
  by rewrite Hpc, Hget, Hmf, Hnew.
Qed.

Lemma Run_sample_failed (st : State X) sample rest lset mf err :
  pc st = InSamples (sample :: rest) →
  seriesCache_get (RefSample_Ref sample) (cache st) = Some lset →
  buildMetricFamily lset sample = Some mf →
  NewMetricFamily mf [NoTimestamp] (targetLabels lset) = Err err →
  step w RunStep st
  = goto (InSamples rest)
      (note sample (CannotConstruct err)
         (emit (Log LevelWarn [("msg", LStr "Cannot construct MetricFamily");
                               ("err", LErr err)]) st)).
Proof.
  intros Hpc Hget Hmf Hnew. simpl. unfold Run_step, Run_sample.
  by rewrite Hpc, Hget, Hmf, Hnew.
Qed.

End LoopBody.

(** C1 (amended).  Take a sample that [Run] has decoded and is about to
    process, let the collector and [Stop] act in any way before [Run]
    gets to it, and suppose that the cache then knows the sample's ref,
    that the metric family is built and that [NewMetricFamily] accepts
    it.  Then the sample causes exactly one effect, the call
    [Append(f)], where [f] is made from the metric family that carries
    the series' labels other than the name, the sample's timestamp and
    the sample's value, together with the series' labels as target
    labels; and [Run] goes on with the rest of the batch. *)
Theorem one_Append_per_translated_sample `{X : Externals} (w : World X)
    (evs envs : list Event) (sample : RefSample) (rest : list RefSample)
    (lset : Labels) (mf : dto_MetricFamily) (f : MetricFamily) :
  pc (exec w evs (init w)) = InSamples (sample :: rest) →
  Forall is_env envs →
  seriesCache_get (RefSample_Ref sample) (cache (exec w (evs ++ envs) (init w)))
  = Some lset →
  buildMetricFamily lset sample = Some mf →
  NewMetricFamily mf [NoTimestamp] (targetLabels lset) = Ok f →
  let st0 := exec w evs (init w) in
  let st' := exec w (evs ++ envs ++ [RunStep]) (init w) in
  effects st' = effects st0 ++ [Append f]
  ∧ appended (effects st') = appended (effects st0) ++ [f]
  ∧ journal st' = journal st0 ++ [(sample, Emitted lset f)]
  ∧ pc st' = InSamples rest
  ∧ targetLabels lset = lset
  ∧ ∃ m, MetricFamily_Metric mf = [m]
         ∧ Metric_Label m = label_pair <$> other_labels lset
         ∧ Metric_TimestampMs m = Some (RefSample_T sample)
         ∧ Metric_Untyped m = Some {| Untyped_Value := Some (RefSample_V sample) |}.
Proof.
  intros Hpc Henv Hget Hmf Hnew st0 st'.
  destruct (before_sample w evs envs sample rest Hpc Henv) as (Hp & _ & _ & He & Hj).
  assert (Hst' : st' = step w RunStep (exec w (evs ++ envs) (init w))).
  { unfold st'. by rewrite app_assoc, exec_app. }
  rewrite Hst', (Run_sample_emitted w _ sample rest lset mf f) by congruence.
  simpl. fold st0 in He, Hj. rewrite He, Hj, appended_snoc_Append.
  do 4 (split; [done|]). split; [apply targetLabels_id|].
  assert (Hne : lset ≠ []).
  { intros ->. by rewrite (proj2 (buildMetricFamily_None [] sample)) in Hmf. }
  rewrite buildMetricFamily_Some in Hmf by done. injection Hmf as <-.
  eexists. by repeat split.
Qed.

Lemma one_Append_per_translated_sample_witness :
  pc (exec world_S1 (runs 6) (init world_S1)) = InSamples [sample7; sample7_nan]
  ∧ Forall is_env [GC 0; StopCall]
  ∧ seriesCache_get (RefSample_Ref sample7)
      (cache (exec world_S1 (runs 6 ++ [GC 0; StopCall]) (init world_S1)))
    = Some lset_x
  ∧ buildMetricFamily lset_x sample7 = Some (MetricFamily_pb f_sample7)
  ∧ @NewMetricFamily table (MetricFamily_pb f_sample7) [@NoTimestamp table] (targetLabels lset_x)
    = Ok f_sample7
  ∧ let st0 := exec world_S1 (runs 6) (init world_S1) in
    let st' := exec world_S1 (runs 6 ++ [GC 0; StopCall] ++ [RunStep]) (init world_S1) in
    effects st' = effects st0 ++ [@Append table f_sample7]
    ∧ appended (effects st') = appended (effects st0) ++ [f_sample7]
    ∧ journal st' = journal st0 ++ [(sample7, @Emitted table lset_x f_sample7)]
    ∧ pc st' = InSamples [sample7_nan]
    ∧ targetLabels lset_x = lset_x
    ∧ ∃ m, MetricFamily_Metric (MetricFamily_pb f_sample7) = [m]
           ∧ Metric_Label m = label_pair <$> other_labels lset_x
           ∧ Metric_TimestampMs m = Some (RefSample_T sample7)
           ∧ Metric_Untyped m = Some {| Untyped_Value := Some (RefSample_V sample7) |}.
Proof.
  assert (H1 : pc (exec world_S1 (runs 6) (init world_S1))
               = InSamples [sample7; sample7_nan]) by (vm_compute; reflexivity).
  assert (H2 : Forall is_env [GC 0; StopCall])
    by (repeat constructor; discriminate).
  assert (H3 : seriesCache_get (RefSample_Ref sample7)
                 (cache (exec world_S1 (runs 6 ++ [GC 0; StopCall]) (init world_S1)))
               = Some lset_x) by (vm_compute; reflexivity).
  assert (H4 : buildMetricFamily lset_x sample7 = Some (MetricFamily_pb f_sample7))
    by (vm_compute; reflexivity).
  assert (H5 : @NewMetricFamily table (MetricFamily_pb f_sample7) [@NoTimestamp table]
                 (targetLabels lset_x) = Ok f_sample7) by (vm_compute; reflexivity).
  exact (conj H1 (conj H2 (conj H3 (conj H4 (conj H5
           (one_Append_per_translated_sample world_S1 (runs 6) [GC 0; StopCall]
              sample7 [sample7_nan] lset_x (MetricFamily_pb f_sample7) f_sample7
              H1 H2 H3 H4 H5)))))).
Defined.

(** C1 as stated fails: the cache knows ref 8, whose label set lacks the
    name label; [NewMetricFamily] rejects the metric family, [Run] logs a
    warning and goes on, and no [Append] is made for the sample. *)
Lemma lookup_success_without_Append :
  let st := exec world_anonymous (runs 7) (init world_anonymous) in
  let st' := step world_anonymous RunStep st in
  pc st = InSamples [sample8; sample7]
  ∧ seriesCache_get (RefSample_Ref sample8) (cache st) = Some lset_anonymous
  ∧ pc st' = InSamples [sample7]
  ∧ ¬ ∃ f, appended (effects st') = appended (effects st) ++ [f].
Proof.
  vm_compute. repeat split. intros [f Hf]. discriminate.
Qed.

(** C2 (amended).  Take a sample that [Run] has decoded and is about to
    process, let the collector and [Stop] act in any way before [Run]
    gets to it, and suppose that the cache then does not know the
    sample's ref.  Then the sample causes exactly one effect, a log
    record at level warn that names the sample; no [Append] is made and
    no counter moves; and [Run] goes on with the rest of the batch. *)
Theorem unknown_ref_is_dropped `{X : Externals} (w : World X)
    (evs envs : list Event) (sample : RefSample) (rest : list RefSample) :
  pc (exec w evs (init w)) = InSamples (sample :: rest) →
  Forall is_env envs →
  seriesCache_get (RefSample_Ref sample) (cache (exec w (evs ++ envs) (init w))) = None →
  let st0 := exec w evs (init w) in
  let st' := exec w (evs ++ envs ++ [RunStep]) (init w) in
  effects st' = effects st0 ++ [Log LevelWarn [("msg", LStr "Unknown series ref in sample");
                                              ("sample", LSample sample)]]
  ∧ appended (effects st') = appended (effects st0)
  ∧ (∀ name, counted name (effects st') = counted name (effects st0))
  ∧ journal st' = journal st0 ++ [(sample, UnknownRef)]
  ∧ pc st' = InSamples rest.
Proof.
  intros Hpc Henv Hget st0 st'.
  destruct (before_sample w evs envs sample rest Hpc Henv) as (Hp & _ & _ & He & Hj).
  assert (Hst' : st' = step w RunStep (exec w (evs ++ envs) (init w))).
  { unfold st'. by rewrite app_assoc, exec_app. }
  rewrite Hst', (Run_sample_unknown w _ sample rest) by congruence.
  simpl. fold st0 in He, Hj. rewrite He, Hj, appended_snoc_Log.
  repeat split. intros name. by rewrite counted_snoc_Log.
Qed.

Lemma unknown_ref_is_dropped_witness :
  pc (exec world_unknown (runs 6) (init world_unknown)) = InSamples [sample9; sample7]
  ∧ Forall is_env [GC 0]
  ∧ seriesCache_get (RefSample_Ref sample9)
      (cache (exec world_unknown (runs 6 ++ [GC 0]) (init world_unknown))) = None
  ∧ let st0 := exec world_unknown (runs 6) (init world_unknown) in
    let st' := exec world_unknown (runs 6 ++ [GC 0] ++ [RunStep]) (init world_unknown) in
    effects st' = effects st0 ++ [Log LevelWarn [("msg", LStr "Unknown series ref in sample");
                                                ("sample", LSample sample9)]]
    ∧ appended (effects st') = appended (effects st0)
    ∧ (∀ name, counted name (effects st') = counted name (effects st0))
    ∧ journal st' = journal st0 ++ [(sample9, UnknownRef)]
    ∧ pc st' = InSamples [sample7].
Proof.
  assert (H1 : pc (exec world_unknown (runs 6) (init world_unknown))
               = InSamples [sample9; sample7]) by (vm_compute; reflexivity).
  assert (H2 : Forall is_env [GC 0]) by (repeat constructor; discriminate).
  assert (H3 : seriesCache_get (RefSample_Ref sample9)
                 (cache (exec world_unknown (runs 6 ++ [GC 0]) (init world_unknown)))
               = None) by (vm_compute; reflexivity).
  exact (conj H1 (conj H2 (conj H3
           (unknown_ref_is_dropped world_unknown (runs 6) [GC 0] sample9 [sample7]
              H1 H2 H3)))).
Defined.

(** C2 as stated fails: when the sample of the unknown ref 9 is dropped,
    the counter of samples dropped for an unknown ref does not move. *)
Lemma unknown_ref_moves_no_counter :
  let st := exec world_unknown (runs 6) (init world_unknown) in
  let st' := step world_unknown RunStep st in
  pc st = InSamples [sample9; sample7]
  ∧ seriesCache_get (RefSample_Ref sample9) (cache st) = None
  ∧ journal st' = journal st ++ [(sample9, UnknownRef)]
  ∧ counted "samples-dropped-unknown-ref" (effects st')
    ≠ S (counted "samples-dropped-unknown-ref" (effects st)).
Proof.
  vm_compute. repeat split. discriminate.
Qed.

(** C9 (amended).  When a series or samples record does not decode, or
    [NewMetricFamily] rejects the metric family of a sample, the step of
    [Run] that meets the failure writes exactly one log record (level
    error for a record, level warn for a sample), makes no [Append],
    leaves the cache alone and goes on: with the next record after a
    record that does not decode, with the rest of the batch after a
    rejected sample. *)
Theorem local_failures_are_skipped `{X : Externals} (w : World X) (st : State X)
    (entry : Level * list (string * LogValue)) (next : PC) :
  local_failure st entry next →
  let st' := step w RunStep st in
  effects st' = effects st ++ [Log entry.1 entry.2]
  ∧ appended (effects st') = appended (effects st)
  ∧ emitted (journal st') = emitted (journal st)
  ∧ cache st' = cache st
  ∧ pc st' = next
  ∧ in_loop (pc st').
Proof.
  intros [Hf|[Hf|Hf]] st'.
  - destruct Hf as (rec & seg & rs & err & Hpc & Hd & Hun & Hty & Hdec & -> & ->).
    unfold st'. simpl. unfold Run_step, Run_next, reader_Next, Run_dispatch.
    rewrite Hpc, Hd, Hun, Hty, Hdec. simpl.
    by rewrite appended_snoc_Log.
  - destruct Hf as (rec & seg & rs & err & Hpc & Hd & Hun & Hty & Hdec & -> & ->).
    unfold st'. simpl. unfold Run_step, Run_next, reader_Next, Run_dispatch.
    rewrite Hpc, Hd, Hun, Hty, Hdec. simpl.
    by rewrite appended_snoc_Log.
  - destruct Hf as (sample & rest & lset & mf & err & Hpc & Hget & Hmf & Hnew & -> & ->).
    unfold st'. rewrite (Run_sample_failed w st sample rest lset mf err) by done.
    simpl. by rewrite appended_snoc_Log, emitted_snoc_dropped.
Qed.

Lemma local_failures_are_skipped_witness :
  (let st := exec world_broken (runs 5) (init world_broken) in
   let entry := (LevelError, [("error", LErr "short series record")]) in
   local_failure st entry AtNext
   ∧ let st' := step world_broken RunStep st in
     effects st' = effects st ++ [Log entry.1 entry.2]
     ∧ appended (effects st') = appended (effects st)
     ∧ emitted (journal st') = emitted (journal st)
     ∧ cache st' = cache st
     ∧ pc st' = AtNext
     ∧ in_loop (pc st'))
  ∧ (let st := exec world_anonymous (runs 7) (init world_anonymous) in
     let entry := (LevelWarn, [("msg", LStr "Cannot construct MetricFamily");
                               ("err", LErr "missing metric name label")]) in
     local_failure st entry (InSamples [sample7])
     ∧ let st' := step world_anonymous RunStep st in
       effects st' = effects st ++ [Log entry.1 entry.2]
       ∧ appended (effects st') = appended (effects st)
       ∧ emitted (journal st') = emitted (journal st)
       ∧ cache st' = cache st
       ∧ pc st' = InSamples [sample7]
       ∧ in_loop (pc st')).
Proof.
  assert (H1 : local_failure (exec world_broken (runs 5) (init world_broken))
                 (LevelError, [("error", LErr "short series record")]) AtNext).
  { left. eexists _, _, _, _. vm_compute. repeat split. }
  assert (H2 : local_failure (exec world_anonymous (runs 7) (init world_anonymous))
                 (LevelWarn, [("msg", LStr "Cannot construct MetricFamily");
                              ("err", LErr "missing metric name label")])
                 (InSamples [sample7])).
  { right. right. exists sample8, [sample7], lset_anonymous.
    eexists _, _. vm_compute. repeat split. }
  split.
  - exact (conj H1 (local_failures_are_skipped world_broken _ _ _ H1)).
  - exact (conj H2 (local_failures_are_skipped world_anonymous _ _ _ H2)).
Defined.

(** C9 as stated fails: when the series record that does not decode is
    skipped, an error is logged and no counter moves. *)
Lemma decode_failure_moves_no_counter :
  let st := exec world_broken (runs 5) (init world_broken) in
  let st' := step world_broken RunStep st in
  local_failure st (LevelError, [("error", LErr "short series record")]) AtNext
  ∧ effects st' = effects st ++ [Log LevelError [("error", LErr "short series record")]]
  ∧ ¬ ∃ name, counted name (effects st') = S (counted name (effects st)).
Proof.
  split; [|split].
  - left. eexists _, _, _, _. vm_compute. repeat split.
  - vm_compute. reflexivity.
  - intros [name Hn]. vm_compute in Hn. discriminate.
Qed.

(** ** What the appender receives *)

Section Outbound.
Context `{X : Externals} (w : World X).

(** Every argument of an [Append] call comes from a sample that went
    through the loop body: the cache answered with a label set, the
    metric family was built from it and from the sample, and
    [NewMetricFamily] turned it into the argument. *)
Lemma appended_origin (st : State X) (f : MetricFamily) :
  Inv w st → f ∈ appended (effects st) →
  ∃ sample lset,
    (sample, Emitted lset f) ∈ journal st
    ∧ lset ≠ []
    ∧ NewMetricFamily
        {| MetricFamily_Name := last (name_values lset);
           MetricFamily_Help := None;
           MetricFamily_Type := Some MetricType_UNTYPED;
           MetricFamily_Metric :=
             [{| Metric_Label := label_pair <$> other_labels lset;
                 Metric_Gauge := None;
                 Metric_Counter := None;
                 Metric_Untyped := Some {| Untyped_Value := Some (RefSample_V sample) |};
                 Metric_TimestampMs := Some (RefSample_T sample) |}] |}
        [NoTimestamp] (targetLabels lset) = Ok f.
Proof.
  intros [_ Ha _ Hs _]. rewrite Ha.
  intros ([s f'] & -> & Hin)%list_elem_of_fmap.
  apply list_elem_of_omap in Hin as ([s' d] & Hin & Hd). simpl in Hd.
  destruct d as [| |lset f'']; try done. injection Hd as -> ->.
  rewrite Forall_forall in Hs. destruct (Hs _ Hin) as (mf & Hmf & Hnew).
  simpl in Hmf, Hnew.
  assert (Hne : lset ≠ []).
  { intros ->. by rewrite (proj2 (buildMetricFamily_None [] s)) in Hmf. }
  rewrite buildMetricFamily_Some in Hmf by done. injection Hmf as <-.
  by exists s, lset.
Qed.

(** [manager.go] has no counter: none is ever incremented. *)
Lemma no_counter_moves (evs : list Event) (name : string) :
  counted name (effects (exec w evs (init w))) = 0%nat.
Proof. by destruct (Inv_reachable w evs) as [_ _ Hn _ _]. Qed.

Lemma prefix_sublist {A} (l1 l2 : list A) : l1 `prefix_of` l2 → l1 `sublist_of` l2.
Proof. intros [k ->]. by apply sublist_inserts_r. Qed.

Lemma journal_prefix_of_wal (st : State X) :
  Inv w st → (journal st).*1 `prefix_of` wal_samples (responses w).
Proof.
  intros [_ _ _ _ (consumed & todo & -> & Hj & _)].
  rewrite wal_samples_app, <- Hj, <- app_assoc. by eexists.
Qed.

End Outbound.

(** C4.  Whatever [Run] hands to [Append] was made by [NewMetricFamily]
    from a metric family whose single metric carries the labels of the
    series other than the name label, as label pairs and in their
    original order, and whose name is the value of the name label of the
    series: the last such value should there be several, and exactly that
    value when the label set has one name label. *)
Theorem name_and_labels_of_appended `{X : Externals} (w : World X) (evs : list Event)
    (f : MetricFamily) :
  f ∈ appended (effects (exec w evs (init w))) →
  ∃ sample lset mf m,
    (sample, Emitted lset f) ∈ journal (exec w evs (init w))
    ∧ buildMetricFamily lset sample = Some mf
    ∧ NewMetricFamily mf [NoTimestamp] (targetLabels lset) = Ok f
    ∧ MetricFamily_Metric mf = [m]
    ∧ MetricFamily_Name mf = last (name_values lset)
    ∧ (∀ v, name_values lset = [v] → MetricFamily_Name mf = Some v)
    ∧ Metric_Label m = label_pair <$> other_labels lset
    ∧ other_labels lset `sublist_of` lset.
Proof.
  intros Hf.
  destruct (appended_origin w _ f (Inv_reachable w evs) Hf)
    as (sample & lset & Hin & Hne & Hnew).
  eexists sample, lset, _, _. split; [done|].
  split; [by apply buildMetricFamily_Some|]. split; [done|].
  simpl. repeat split; try done.
  - by intros v ->.
  - apply sublist_filter.
Qed.

Lemma name_and_labels_of_appended_witness :
  f_sample7 ∈ appended (effects (exec world_S1 (runs 8) (init world_S1)))
  ∧ ∃ sample lset mf m,
      (sample, @Emitted table lset f_sample7) ∈ journal (exec world_S1 (runs 8) (init world_S1))
      ∧ buildMetricFamily lset sample = Some mf
      ∧ @NewMetricFamily table mf [@NoTimestamp table] (targetLabels lset) = Ok f_sample7
      ∧ MetricFamily_Metric mf = [m]
      ∧ MetricFamily_Name mf = last (name_values lset)
      ∧ (∀ v, name_values lset = [v] → MetricFamily_Name mf = Some v)
      ∧ Metric_Label m = label_pair <$> other_labels lset
      ∧ other_labels lset `sublist_of` lset.
Proof.
  assert (H1 : f_sample7 ∈ appended (effects (exec world_S1 (runs 8) (init world_S1)))).
  { vm_compute. repeat constructor. }
  exact (conj H1 (name_and_labels_of_appended world_S1 (runs 8) f_sample7 H1)).
Defined.

(** C5.  Whatever [Run] hands to [Append] was made by [NewMetricFamily]
    from a metric family whose single metric holds, as its untyped value,
    the 64 bits of the sample's value as they are, and, as its timestamp,
    the sample's timestamp. *)
Theorem value_and_timestamp_of_appended `{X : Externals} (w : World X) (evs : list Event)
    (f : MetricFamily) :
  f ∈ appended (effects (exec w evs (init w))) →
  ∃ sample lset mf m,
    (sample, Emitted lset f) ∈ journal (exec w evs (init w))
    ∧ buildMetricFamily lset sample = Some mf
    ∧ NewMetricFamily mf [NoTimestamp] (targetLabels lset) = Ok f
    ∧ MetricFamily_Metric mf = [m]
    ∧ Metric_Untyped m = Some {| Untyped_Value := Some (RefSample_V sample) |}
    ∧ Metric_TimestampMs m = Some (RefSample_T sample).
Proof.
  intros Hf.
  destruct (appended_origin w _ f (Inv_reachable w evs) Hf)
    as (sample & lset & Hin & Hne & Hnew).
  eexists sample, lset, _, _. split; [done|].
  split; [by apply buildMetricFamily_Some|]. by split.
Qed.

Lemma value_and_timestamp_of_appended_witness :
  f_sample7_nan ∈ appended (effects (exec world_S1 (runs 8) (init world_S1)))
  ∧ ∃ sample lset mf m,
      (sample, @Emitted table lset f_sample7_nan)
        ∈ journal (exec world_S1 (runs 8) (init world_S1))
      ∧ buildMetricFamily lset sample = Some mf
      ∧ @NewMetricFamily table mf [@NoTimestamp table] (targetLabels lset) = Ok f_sample7_nan
      ∧ MetricFamily_Metric mf = [m]
      ∧ Metric_Untyped m = Some {| Untyped_Value := Some (RefSample_V sample) |}
      ∧ Metric_TimestampMs m = Some (RefSample_T sample).
Proof.
  assert (H1 : f_sample7_nan
               ∈ appended (effects (exec world_S1 (runs 8) (init world_S1)))).
  { vm_compute. repeat constructor. }
  exact (conj H1 (value_and_timestamp_of_appended world_S1 (runs 8) f_sample7_nan H1)).
Defined.

(** C6.  Whatever [Run] hands to [Append] was made by [NewMetricFamily]
    from a metric family of type untyped, whose single metric has neither
    a gauge nor a counter value, and from the reset timestamps
    [[NoTimestamp]]. *)
Theorem type_and_reset_of_appended `{X : Externals} (w : World X) (evs : list Event)
    (f : MetricFamily) :
  f ∈ appended (effects (exec w evs (init w))) →
  ∃ sample lset mf m,
    (sample, Emitted lset f) ∈ journal (exec w evs (init w))
    ∧ buildMetricFamily lset sample = Some mf
    ∧ NewMetricFamily mf [NoTimestamp] (targetLabels lset) = Ok f
    ∧ MetricFamily_Type mf = Some MetricType_UNTYPED
    ∧ MetricFamily_Metric mf = [m]
    ∧ Metric_Gauge m = None
    ∧ Metric_Counter m = None.
Proof.
  intros Hf.
  destruct (appended_origin w _ f (Inv_reachable w evs) Hf)
    as (sample & lset & Hin & Hne & Hnew).
  eexists sample, lset, _, _. split; [done|].
  split; [by apply buildMetricFamily_Some|]. by split.
Qed.

Lemma type_and_reset_of_appended_witness :
  f_sample7 ∈ appended (effects (exec world_S1 (runs 8) (init world_S1)))
  ∧ ∃ sample lset mf m,
      (sample, @Emitted table lset f_sample7) ∈ journal (exec world_S1 (runs 8) (init world_S1))
      ∧ buildMetricFamily lset sample = Some mf
      ∧ @NewMetricFamily table mf [@NoTimestamp table] (targetLabels lset) = Ok f_sample7
      ∧ MetricFamily_Type mf = Some MetricType_UNTYPED
      ∧ MetricFamily_Metric mf = [m]
      ∧ Metric_Gauge m = None
      ∧ Metric_Counter m = None.
Proof.
  assert (H1 : f_sample7 ∈ appended (effects (exec world_S1 (runs 8) (init world_S1)))).
  { vm_compute. repeat constructor. }
  exact (conj H1 (type_and_reset_of_appended world_S1 (runs 8) f_sample7 H1)).
Defined.

(** The samples of refs 7 and 5 alternate over three segments; with the
    collector at work in between, each ref's samples reach the appender in
    the order of the WAL. *)
Example appends_follow_WAL_order_across_segments :
  let st := exec world_rotation
              (runs 10 ++ [GC 0] ++ runs 4 ++ [GC 0] ++ runs 6)
              (init world_rotation) in
  (emitted (of_ref 7 (journal st))).*1 = [sample7; sample7_nan; sample7_late]
  ∧ (emitted (of_ref 5 (journal st))).*1 = [sample5; sample5_late]
  ∧ length (appended (effects st)) = 5%nat.
Proof. vm_compute. done. Qed.

(** * Further properties of the pipeline *)

(** ** Every step is one of the moves *)

Section StepMoves.
Context `{X : Externals} (w : World X).

Lemma quiet_refl (st : State X) :
  moves w st st.
Proof. apply moves_quiet; try done. by left. Qed.

Lemma Run_step_moves (st : State X) : moves w st (Run_step w st).
Proof.
  unfold Run_step. destruct (pc st) as [| | |l seg|l|e|why] eqn:Hpc.
  - by apply moves_start.
  - unfold Run_open. destruct (tail_Tail w) as [err|] eqn:Ht.
    + by apply (moves_open_failed w _ _ err).
    + by apply moves_open.
  - unfold Run_next, reader_Next. destruct (ctxDone st) eqn:Hd.
    { by apply moves_cancelled. }
    destruct (unread st) as [|r rs] eqn:Hun; [apply quiet_refl|].
    destruct r as [rec seg [err|]|err].
    + apply (moves_read w _ _ (Yield rec seg (Some err))); simpl; try done.
      by rewrite app_nil_r.
    + unfold Run_dispatch.
      apply (moves_read w _ _ (Yield rec seg None)); try done;
        unfold resp_effects; simpl;
        destruct (decoder_Type rec);
        try destruct (decoder_Series rec); try destruct (decoder_Samples rec);
        simpl; by rewrite ?app_nil_r.
    + by apply (moves_read w _ _ (Halt err)).
  - destruct l as [|series rest]; apply moves_quiet; simpl; try done;
      right; by rewrite Hpc.
  - destruct l as [|sample rest].
    { apply moves_quiet; simpl; try done. right. by rewrite Hpc. }
    unfold Run_sample.
    destruct (seriesCache_get _ _) as [lset|] eqn:Hget.
    + destruct (buildMetricFamily lset sample) as [mf|] eqn:Hmf.
      * destruct (NewMetricFamily mf _ _) as [f|err].
        -- by apply (moves_sample w _ _ sample rest (Emitted lset f)).
        -- by apply (moves_sample w _ _ sample rest (CannotConstruct err)).
      * apply buildMetricFamily_None in Hmf as ->.
        by apply (moves_make_panic w _ _ sample rest).
    + by apply (moves_sample w _ _ sample rest UnknownRef).
  - apply quiet_refl.
  - apply quiet_refl.
Qed.

Lemma step_moves ev (st : State X) : Inv w st → moves w st (step w ev st).
Proof.
  intros [Hc _ _ _ _]. destruct ev as [|smin|]; simpl.
  - apply Run_step_moves.
  - unfold gc_step. destruct (pc st) eqn:Hpc; try apply quiet_refl;
      destruct (ctxDone st) eqn:Hd; try apply quiet_refl;
      apply moves_quiet; simpl; try done; by left.
  - unfold Stop. destruct (pc st) eqn:Hpc; try apply quiet_refl;
      destruct (cancelTail (rdr st)) as [[]|] eqn:Hct; try discriminate;
      try (apply moves_quiet; simpl; try done; by left).
    by apply moves_nil_panic.
Qed.

End StepMoves.

(** Case analysis on a move, with the facts of each case named alike. *)
Ltac moves_cases Hm :=
  destruct Hm as [Hpc Hpc' He Hj Hu
                 |err Hpc Ht Hpc' He Hj Hu
                 |Hpc Ht Hpc' He Hj Hu
                 |Hpc Hd Hd' Hpc' He Hj Hu
                 |r Hpc Hd Hu He Hj Hpc'
                 |sample rest d Hpc Hpc' He Hj Hu
                 |sample rest Hpc Hpc' Hget He Hj Hu
                 |Hpc Hpc' He Hj Hu
                 |Hq He Hj Hu Hd].

(** ** Accounting for effects *)

Section Accounting.
Context `{X : Externals} (w : World X).

(** Induction over the reachable states, move by move. *)
Lemma reachable_ind (P : State X → Prop) :
  P (init w) →
  (∀ st st', Inv w st → moves w st st' → P st → P st') →
  ∀ evs, P (exec w evs (init w)).
Proof.
  intros H0 Hstep evs. induction evs as [|ev evs IH] using rev_ind; [done|].
  rewrite exec_app. simpl.
  eapply Hstep; [apply Inv_reachable| |exact IH].
  apply step_moves, Inv_reachable.
Qed.

Lemma sample_traces_snoc (es : list (Effect X)) (e : Effect X) :
  sample_traces (es ++ [e])
  = sample_traces es ++ sample_traces [e].
Proof. unfold sample_traces. by rewrite omap_app. Qed.

Lemma sample_traces_trace_of (sd : RefSample * Disposition) :
  sample_traces [trace_of sd] = [trace_of sd].
Proof. destruct sd as [s [| |lset f]]; done. Qed.

Lemma sample_traces_resp (es : list (Effect X)) (r : Resp) :
  sample_traces (es ++ resp_effects r) = sample_traces es.
Proof.
  unfold sample_traces. rewrite omap_app.
  assert (Hr : omap (λ e : Effect X,
                  match e with
                  | Append _ => Some e
                  | Log LevelWarn _ => Some e
                  | _ => None
                  end) (resp_effects r) = []).
  { destruct r as [rec seg [err|]|err]; simpl; try done.
    unfold resp_effects. simpl. destruct (decoder_Type rec); try done.
    - by destruct (decoder_Series rec).
    - by destruct (decoder_Samples rec). }
  by rewrite Hr, app_nil_r.
Qed.

Lemma traces_are_the_journal (evs : list Event) :
  sample_traces (effects (exec w evs (init w)))
  = trace_of <$> journal (exec w evs (init w)).
Proof.
  apply (reachable_ind (λ st, sample_traces (effects st) = trace_of <$> journal st));
    [done|].
  intros st st' _ Hm IH.
  moves_cases Hm; rewrite He, Hj;
    rewrite ?sample_traces_snoc, ?sample_traces_resp, ?sample_traces_trace_of,
      ?fmap_app, ?IH; simpl; by rewrite ?app_nil_r.
Qed.

Lemma sample_traces_length (es : list (Effect X)) :
  length (sample_traces es) = (length (appended es) + length (warnings es))%nat.
Proof.
  induction es as [|e es IH]; [done|].
  change (e :: es) with ([e] ++ es).
  unfold sample_traces, appended, warnings in *.
  rewrite !omap_app, !length_app, IH.
  destruct e as [[| |] kv|name|f]; simpl; lia.
Qed.

Lemma errors_logged_snoc (es1 es2 : list (Effect X)) :
  errors_logged (es1 ++ es2) = errors_logged es1 ++ errors_logged es2.
Proof. unfold errors_logged. by rewrite omap_app. Qed.

Lemma errors_logged_resp (r : Resp) :
  errors_logged (resp_effects r) = (λ err, [("error", LErr err)]) <$> decode_error r.
Proof.
  destruct r as [rec seg [err|]|err]; try done.
  unfold resp_effects. generalize (decode_error (Yield rec seg None)).
  intros l. induction l as [|e l IH]; [done|]. simpl. by f_equal.
Qed.

Lemma errors_logged_trace_of (sd : RefSample * Disposition) :
  errors_logged [trace_of sd] = [].
Proof. destruct sd as [s [| |lset f]]; done. Qed.

End Accounting.

(** X6.  Every sample that goes through the loop body leaves exactly one
    trace among the effects, a warning or an [Append] call, and the
    traces come in the order of the samples; no other warning and no
    other [Append] is ever made.  So warnings and [Append] calls together
    are as many as the samples processed, and no more than the samples
    of the WAL. *)
Theorem every_sample_leaves_one_trace `{X : Externals} (w : World X) (evs : list Event) :
  let st := exec w evs (init w) in
  sample_traces (effects st) = trace_of <$> journal st
  ∧ (length (appended (effects st)) + length (warnings (effects st)))%nat
    = length (journal st)
  ∧ (length (journal st) ≤ length (wal_samples (responses w)))%nat.
Proof.
  intros st. pose proof (traces_are_the_journal w evs) as Ht. fold st in Ht.
  split; [done|]. split.
  - by rewrite <- sample_traces_length, Ht, length_fmap.
  - destruct (journal_prefix_of_wal w st (Inv_reachable w evs)) as [k Hk].
    rewrite Hk, length_app, length_fmap. lia.
Qed.

(** X7.  When [tail.Tail] succeeds, the log records at level error are
    exactly the decode errors of the records read so far, one record
    each and in the order of the WAL. *)
Theorem decode_errors_are_logged_in_order `{X : Externals} (w : World X)
    (evs : list Event) :
  tail_Tail w = None →
  ∃ consumed,
    responses w = consumed ++ unread (exec w evs (init w))
    ∧ errors_logged (effects (exec w evs (init w)))
      = (λ err, [("error", LErr err)]) <$> (consumed ≫= decode_error).
Proof.
  intros Htail.
  apply (reachable_ind w
           (λ st, ∃ consumed,
                    responses w = consumed ++ unread st
                    ∧ errors_logged (effects st)
                      = (λ err, [("error", LErr err)]) <$> (consumed ≫= decode_error))).
  { by exists []. }
  intros st st' _ Hm (consumed & Hr & Hlog).
  moves_cases Hm; rewrite He;
    try (exists consumed; rewrite ?Hu, ?errors_logged_snoc, ?errors_logged_trace_of,
           ?app_nil_r; simpl; rewrite ?app_nil_r; done).
  - congruence.
  - exists (consumed ++ [r]). split.
    + by rewrite Hr, Hu, <- app_assoc.
    + rewrite errors_logged_snoc, errors_logged_resp, Hlog, bind_app, fmap_app.
      simpl. by rewrite app_nil_r.
Qed.

Lemma decode_errors_are_logged_in_order_witness :
  tail_Tail world_broken = None
  ∧ ∃ consumed,
      responses world_broken
      = consumed ++ unread (exec world_broken (runs 12) (init world_broken))
      ∧ errors_logged (effects (exec world_broken (runs 12) (init world_broken)))
        = (λ err, [("error", LErr err)]) <$> (consumed ≫= decode_error).
Proof.
  assert (H1 : tail_Tail world_broken = None) by reflexivity.
  exact (conj H1 (decode_errors_are_logged_in_order world_broken (runs 12) H1)).
Defined.

(** ** The lifecycle of a run *)

Section Lifecycle.
Context `{X : Externals} (w : World X).

Lemma in_loop_Working (p : PC) : in_loop p → phase p = Working.
Proof. by destruct p. Qed.

Lemma Done_not_in_errors (errs : list error) :
  (log_Done : Effect X) ∉ log_error <$> errs.
Proof.
  intros (err & Heq & _)%list_elem_of_fmap. discriminate.
Qed.

Lemma Done_not_trace (sd : RefSample * Disposition) :
  (log_Done : Effect X) ≠ trace_of sd.
Proof. destruct sd as [s [| |lset f]]; discriminate. Qed.

(** The effects of a run, phase by phase.  A process that died of the
    nil func call has logged nothing, or the record of line 47 only. *)
Lemma lifecycle_phases (evs : list Event) :
  let st := exec w evs (init w) in
  match phase (pc st) with
  | Idle => effects st = []
  | Dead => effects st = [] ∨ effects st = [log_Starting]
  | Working => ∃ mid, effects st = log_Starting :: mid ∧ log_Done ∉ mid
  | Finished => ∃ mid, effects st = log_Starting :: mid ++ [log_Done] ∧ log_Done ∉ mid
  end.
Proof.
  apply (reachable_ind w
    (λ st, match phase (pc st) with
           | Idle => effects st = []
           | Dead => effects st = [] ∨ effects st = [log_Starting]
           | Working => ∃ mid, effects st = log_Starting :: mid ∧ log_Done ∉ mid
           | Finished =>
               ∃ mid, effects st = log_Starting :: mid ++ [log_Done] ∧ log_Done ∉ mid
           end)); [done|].
  intros st st' _ Hm IH. moves_cases Hm; rewrite He.
  - rewrite Hpc in IH. rewrite Hpc'. simpl in *. rewrite IH.
    exists []. split; [done|]. apply not_elem_of_nil.
  - rewrite Hpc in IH. rewrite Hpc'. simpl in *. destruct IH as (mid & -> & Hn).
    exists (mid ++ [log_error err]). split; [done|].
    rewrite not_elem_of_app, not_elem_of_cons. repeat split; try done.
    apply not_elem_of_nil.
  - rewrite Hpc in IH. by rewrite Hpc'.
  - rewrite Hpc in IH. rewrite Hpc'. simpl in *. destruct IH as (mid & -> & Hn).
    by exists mid.
  - rewrite Hpc in IH. simpl in IH. destruct IH as (mid & -> & Hn).
    destruct r as [rec seg [err'|]|err'].
    + rewrite Hpc'. simpl. exists mid. by rewrite app_nil_r.
    + rewrite (in_loop_Working _ Hpc'). unfold resp_effects.
      exists (mid ++ (log_error <$> decode_error (Yield rec seg None))).
      split; [done|]. rewrite not_elem_of_app. split; [done|].
      apply Done_not_in_errors.
    + rewrite Hpc'. simpl. by exists mid.
  - rewrite Hpc in IH. rewrite Hpc'. simpl in *. destruct IH as (mid & -> & Hn).
    exists (mid ++ [trace_of (sample, d)]). split; [done|].
    rewrite not_elem_of_app, not_elem_of_cons. repeat split; try done.
    + apply Done_not_trace.
    + apply not_elem_of_nil.
  - rewrite Hpc in IH. by rewrite Hpc'.
  - rewrite Hpc in IH. rewrite Hpc'. simpl in *. by left.
  - destruct Hq as [-> | [Hl Hl']]; [done|].
    by rewrite (in_loop_Working _ Hl) in IH; rewrite (in_loop_Working _ Hl').
Qed.

(** X4.  The lifecycle log records frame the effects of a run: nothing
    is logged or appended before [Run] is called; the first effect there
    ever is, is the record "Starting Prometheus reader..."; the record
    "Done processing WAL." is written exactly when [Run] returns nil,
    once and as the last effect. *)
Theorem lifecycle_logs (evs : list Event) :
  let st := exec w evs (init w) in
  (pc st = NotStarted → effects st = [])
  ∧ (effects st = [] ∨ ∃ rest, effects st = log_Starting :: rest)
  ∧ (log_Done ∈ effects st ↔ pc st = Returned None)
  ∧ (pc st = Returned None →
     ∃ mid, effects st = log_Starting :: mid ++ [log_Done] ∧ log_Done ∉ mid).
Proof.
  intros st. pose proof (lifecycle_phases evs) as Hl. cbv zeta in Hl. fold st in Hl.
  assert (Hne : (log_Done : Effect X) ≠ log_Starting) by discriminate.
  assert (Hfin : phase (pc st) = Finished ↔ pc st = Returned None).
  { destruct (pc st) as [| | |l seg|l|[e|]|[|]]; by split. }
  split; [|split; [|split]].
  - intros Hpc. by rewrite Hpc in Hl.
  - destruct (phase (pc st)).
    + by left.
    + destruct Hl as (mid & -> & _). right. by eexists.
    + destruct Hl as (mid & -> & _). right. by eexists.
    + destruct Hl as [-> | ->]; [by left|right; by eexists].
  - rewrite <- Hfin. destruct (phase (pc st)).
    + rewrite Hl. split; [by intros ?%not_elem_of_nil|done].
    + destruct Hl as (mid & -> & Hn). split; [|done].
      intros [?|?]%elem_of_cons; done.
    + destruct Hl as (mid & -> & Hn). split; [done|]. intros _.
      apply elem_of_cons. right. apply elem_of_app. right. by left.
    + split; [|done]. destruct Hl as [-> | ->].
      * by intros ?%not_elem_of_nil.
      * intros [?|?%not_elem_of_nil]%elem_of_cons; done.
  - intros Hpc. by rewrite Hpc in Hl.
Qed.

End Lifecycle.

(** ** How a run ends *)

Section Ending.
Context `{X : Externals} (w : World X).

Lemma over_moves (st st' : State X) :
  is_over (pc st) → moves w st st' →
  pc st' = pc st ∧ effects st' = effects st
  ∧ journal st' = journal st ∧ unread st' = unread st.
Proof.
  intros Hover Hm. moves_cases Hm; try (rewrite Hpc in Hover; by destruct Hover).
  destruct Hq as [Hq|[Hl _]]; [done|]. by destruct (pc st).
Qed.

Lemma returned_provenance (evs : list Event) (r : option error) :
  pc (exec w evs (init w)) = Returned r →
  match r with
  | Some err => tail_Tail w = Some err ∨ ∃ rec segment, Yield rec segment (Some err) ∈ responses w
  | None => ctxDone (exec w evs (init w)) = true ∨ ∃ err, Halt err ∈ responses w
  end.
Proof.
  revert r.
  apply (reachable_ind w
    (λ st, ∀ r, pc st = Returned r →
       match r with
       | Some err =>
           tail_Tail w = Some err ∨ ∃ rec segment, Yield rec segment (Some err) ∈ responses w
       | None => ctxDone st = true ∨ ∃ err, Halt err ∈ responses w
       end)); [done|].
  intros st st' Hinv Hm IH r0 Hr. moves_cases Hm; rewrite Hpc' in Hr || idtac;
    try discriminate.
  - injection Hr as <-. by left.
  - injection Hr as <-. by left.
  - destruct Hinv as [_ _ _ _ (consumed & todo & Hresp & _ & _)].
    assert (Hin : r ∈ responses w).
    { rewrite Hresp, Hu. apply elem_of_app. right. by left. }
    destruct r as [rec seg [err'|]|err'].
    + rewrite Hpc' in Hr. injection Hr as <-. right. eauto.
    + destruct (pc st'); try done.
    + rewrite Hpc' in Hr. injection Hr as <-. right. eauto.
  - destruct Hq as [Hq|[_ Hl']].
    + rewrite Hq in Hr. specialize (IH r0 Hr). destruct r0; [done|].
      destruct IH as [IH|IH]; [left; by apply Hd|by right].
    + rewrite Hr in Hl'. by destruct Hl'.
Qed.

Lemma run_steps_snoc (evs : list Event) (ev : Event) :
  run_steps (evs ++ [ev]) = (run_steps evs + run_steps [ev])%nat.
Proof. unfold run_steps. by rewrite filter_app, length_app. Qed.

(** How many steps [Run] has taken while it is before its loop. *)
Lemma steps_before_loop (evs : list Event) :
  (pc (exec w evs (init w)) = NotStarted → run_steps evs = 0%nat)
  ∧ (pc (exec w evs (init w)) = Opening → run_steps evs = 1%nat).
Proof.
  induction evs as [|ev evs [IH0 IH1]] using rev_ind; [done|].
  rewrite exec_app, run_steps_snoc.
  set (st := exec w evs (init w)) in *.
  destruct ev as [|smin|].
  - change (run_steps [RunStep]) with 1%nat.
    change (exec w [RunStep] st) with (Run_step w st).
    unfold Run_step. destruct (pc st) as [| | |l seg|l|e|why] eqn:Hpc; simpl.
    + split; [done|]. intros _. rewrite IH0 by done. done.
    + unfold Run_open. by destruct (tail_Tail w).
    + unfold Run_next. destruct (reader_Next _ _) as [[[rec seg [err|]|err] rs]|];
        simpl; rewrite ?Hpc; try done.
      unfold Run_dispatch. destruct (decoder_Type rec); simpl; try done.
      * by destruct (decoder_Series rec).
      * by destruct (decoder_Samples rec).
    + by destruct l.
    + destruct l as [|sample rest]; simpl; [done|]. unfold Run_sample.
      destruct (seriesCache_get _ _); simpl; [|done].
      destruct (buildMetricFamily _ _); simpl; [|done].
      by destruct (NewMetricFamily _ _ _).
    + by rewrite Hpc.
    + by rewrite Hpc.
  - change (run_steps [GC smin]) with 0%nat. rewrite Nat.add_0_r.
    change (exec w [GC smin] st) with (gc_step smin st).
    pose proof (gc_same_run smin st) as (Hp & _). rewrite Hp. by split.
  - change (run_steps [StopCall]) with 0%nat. rewrite Nat.add_0_r.
    change (exec w [StopCall] st) with (Stop st).
    unfold Stop. destruct (pc st) eqn:Hpc; try done;
      destruct (cancelTail (rdr st)) as [[]|]; simpl; rewrite ?Hpc; try done.
Qed.

Lemma tail_failure_states (failure : error) (evs : list Event) :
  tail_Tail w = Some failure →
  let st := exec w evs (init w) in
  journal st = [] ∧ unread st = responses w
  ∧ match pc st with
    | NotStarted => effects st = []
    | Panicked NilFuncCall => effects st = [] ∨ effects st = [log_Starting]
    | Opening => effects st = [log_Starting]
    | Returned r => r = Some failure ∧ effects st = [log_Starting; log_error failure]
    | _ => False
    end.
Proof.
  intros Htail.
  apply (reachable_ind w
    (λ st, journal st = [] ∧ unread st = responses w
           ∧ match pc st with
             | NotStarted => effects st = []
             | Panicked NilFuncCall => effects st = [] ∨ effects st = [log_Starting]
             | Opening => effects st = [log_Starting]
             | Returned r =>
                 r = Some failure ∧ effects st = [log_Starting; log_error failure]
             | _ => False
             end)); [done|].
  intros st st' _ Hm (IHj & IHu & IH).
  moves_cases Hm; try (rewrite Hpc in IH; try done).
  - rewrite Hj, Hu, Hpc', He, IH. done.
  - rewrite Hj, Hu, Hpc', He, IH. rewrite Htail in Ht. injection Ht as ->. done.
  - congruence.
  - rewrite Hj, Hu, Hpc', He, IH. repeat split; try done. by left.
  - rewrite Hj, Hu, He. do 2 (split; [done|]).
    destruct Hq as [-> | [Hl _]]; [done|]. by destruct (pc st).
Qed.

End Ending.

(** X1.  When [tail.Tail] fails, [Run] never reads a record, never
    touches a sample and never calls [Append]; if it returns, it returns
    the error of [tail.Tail]; and it does return it, after logging it at
    level error, once it has taken two steps, unless a [Stop] that came
    before [Run] has killed the process. *)
Theorem Tail_failure_is_returned `{X : Externals} (w : World X) (err : error)
    (evs : list Event) :
  tail_Tail w = Some err →
  let st := exec w evs (init w) in
  appended (effects st) = []
  ∧ journal st = []
  ∧ unread st = responses w
  ∧ (∀ r, pc st = Returned r → r = Some err)
  ∧ ((2 ≤ run_steps evs)%nat → (∀ why, pc st ≠ Panicked why) →
     pc st = Returned (Some err) ∧ effects st = [log_Starting; log_error err]).
Proof.
  intros Htail st.
  destruct (tail_failure_states w err evs Htail) as (Hj & Hu & Hpc).
  destruct (steps_before_loop w evs) as [H0 H1].
  fold st in Hj, Hu, Hpc, H0, H1.
  split; [|split; [done|split; [done|split]]].
  - destruct (pc st) as [| | |l seg|l|r|[|]]; try done.
    + by rewrite Hpc.
    + by rewrite Hpc.
    + destruct Hpc as [_ ->]. done.
    + by destruct Hpc as [-> | ->].
  - intros r Hr. rewrite Hr in Hpc. by destruct Hpc.
  - intros Hsteps Halive.
    destruct (pc st) as [| | |l seg|l|r|why]; try done.
    + specialize (H0 eq_refl). lia.
    + specialize (H1 eq_refl). lia.
    + by destruct Hpc as [-> ->].
    + by destruct (Halive why).
Qed.

Lemma Tail_failure_is_returned_witness :
  tail_Tail world_tail_failure = Some "open data/wal: no such file or directory"
  ∧ let st := exec world_tail_failure [RunStep; GC 0; StopCall; RunStep; RunStep]
                (init world_tail_failure) in
    appended (effects st) = []
    ∧ journal st = []
    ∧ unread st = responses world_tail_failure
    ∧ (∀ r, pc st = Returned r → r = Some "open data/wal: no such file or directory")
    ∧ ((2 ≤ run_steps [RunStep; GC 0; StopCall; RunStep; RunStep])%nat →
       (∀ why, pc st ≠ Panicked why) →
       pc st = Returned (Some "open data/wal: no such file or directory")
       ∧ effects st
         = [log_Starting; log_error "open data/wal: no such file or directory"]).
Proof.
  assert (H1 : tail_Tail world_tail_failure
               = Some "open data/wal: no such file or directory") by reflexivity.
  exact (conj H1 (Tail_failure_is_returned world_tail_failure _
                    [RunStep; GC 0; StopCall; RunStep; RunStep] H1)).
Defined.

(** X2.  An error that [Run] returns is the error of [tail.Tail] or an
    error that the reader reported together with a record ([Next()] true,
    [Err()] not nil); [Run] returns no error of its own and none that the
    reader reports with [Next()] false. *)
Theorem returned_error_comes_from_Tail_or_reader `{X : Externals} (w : World X)
    (evs : list Event) (err : error) :
  pc (exec w evs (init w)) = Returned (Some err) →
  tail_Tail w = Some err ∨ ∃ rec segment, Yield rec segment (Some err) ∈ responses w.
Proof. apply (returned_provenance w evs (Some err)). Qed.

Lemma returned_error_comes_from_Tail_or_reader_witness :
  pc (exec world_inner_error (runs 6) (init world_inner_error))
  = Returned (Some "read error")
  ∧ (tail_Tail world_inner_error = Some "read error"
     ∨ ∃ rec segment,
         @Yield table rec segment (Some "read error") ∈ responses world_inner_error).
Proof.
  assert (H1 : pc (exec world_inner_error (runs 6) (init world_inner_error))
               = Returned (Some "read error")) by (vm_compute; reflexivity).
  exact (conj H1 (returned_error_comes_from_Tail_or_reader world_inner_error
                    (runs 6) "read error" H1)).
Defined.

(** X3.  [Run] returns nil only when the reader has ended the loop
    ([Next()] false) or the context has been cancelled; in particular it
    does not return on its own at the tail of the log. *)
Theorem Run_returns_nil_only_on_end_or_cancel `{X : Externals} (w : World X)
    (evs : list Event) :
  pc (exec w evs (init w)) = Returned None →
  ctxDone (exec w evs (init w)) = true ∨ ∃ err, Halt err ∈ responses w.
Proof. apply (returned_provenance w evs None). Qed.

Lemma Run_returns_nil_only_on_end_or_cancel_witness :
  pc (exec world_S1 (runs 6 ++ [StopCall] ++ runs 4) (init world_S1)) = Returned None
  ∧ (ctxDone (exec world_S1 (runs 6 ++ [StopCall] ++ runs 4) (init world_S1)) = true
     ∨ ∃ err, @Halt table err ∈ responses world_S1).
Proof.
  assert (H1 : pc (exec world_S1 (runs 6 ++ [StopCall] ++ runs 4) (init world_S1))
               = Returned None) by (vm_compute; reflexivity).
  exact (conj H1 (Run_returns_nil_only_on_end_or_cancel world_S1
                    (runs 6 ++ [StopCall] ++ runs 4) H1)).
Defined.

(** X5.  Once [Run] has returned or the process has died, no event of
    any goroutine changes where [Run] stands, adds an effect (so no
    [Append] is made after [Run] has returned), touches the journal or
    reads a record. *)
Theorem nothing_happens_after_Run_is_over `{X : Externals} (w : World X)
    (evs more : list Event) :
  is_over (pc (exec w evs (init w))) →
  let st := exec w evs (init w) in
  let st' := exec w (evs ++ more) (init w) in
  pc st' = pc st ∧ effects st' = effects st
  ∧ journal st' = journal st ∧ unread st' = unread st.
Proof.
  intros Hover st st'. unfold st'. clear st'.
  induction more as [|ev more IH] using rev_ind.
  - by rewrite app_nil_r.
  - destruct IH as (Hp & He & Hj & Hu).
    rewrite app_assoc, exec_app. simpl.
    destruct (over_moves w (exec w (evs ++ more) (init w))
                (step w ev (exec w (evs ++ more) (init w))))
      as (Hp' & He' & Hj' & Hu').
    + by rewrite Hp.
    + apply step_moves, Inv_reachable.
    + repeat split; congruence.
Qed.

Lemma nothing_happens_after_Run_is_over_witness :
  is_over (pc (exec world_corrupt (runs 9) (init world_corrupt)))
  ∧ let st := exec world_corrupt (runs 9) (init world_corrupt) in
    let st' := exec world_corrupt (runs 9 ++ [RunStep; GC 1; StopCall; RunStep])
                 (init world_corrupt) in
    pc st' = pc st ∧ effects st' = effects st
    ∧ journal st' = journal st ∧ unread st' = unread st.
Proof.
  assert (H1 : is_over (pc (exec world_corrupt (runs 9) (init world_corrupt))))
    by (vm_compute; exact I).
  exact (conj H1 (nothing_happens_after_Run_is_over world_corrupt (runs 9)
                    [RunStep; GC 1; StopCall; RunStep] H1)).
Defined.

(** ** Panics *)

Section Panics.
Context `{X : Externals} (w : World X).

Lemma no_run_steps (evs : list Event) : run_steps evs = 0%nat → RunStep ∉ evs.
Proof.
  unfold run_steps. intros Hlen Hin.
  assert (Hf : RunStep ∈ filter (λ ev, ev = RunStep) evs) by by apply list_elem_of_filter.
  destruct (filter _ evs); [by apply not_elem_of_nil in Hf|done].
Qed.

Lemma into_nil_panic ev (st : State X) :
  Inv w st → pc (step w ev st) = Panicked NilFuncCall →
  pc st = Panicked NilFuncCall ∨ (pc st = NotStarted ∧ ev = StopCall).
Proof.
  intros Hinv Hp.
  assert (Hfrom : pc st = Panicked NilFuncCall ∨ pc st = NotStarted).
  { pose proof (step_moves w ev st Hinv) as Hm.
    moves_cases Hm; try (rewrite Hpc' in Hp; discriminate).
    - destruct r as [rec seg [e|]|e]; rewrite ?Hpc' in Hp; try discriminate.
      rewrite Hp in Hpc'. by destruct Hpc'.
    - by right.
    - destruct Hq as [Hq|[_ Hl']]; [left; congruence|].
      rewrite Hp in Hl'. by destruct Hl'. }
  destruct Hfrom as [Hfrom|Hfrom]; [by left|]. right. split; [done|].
  destruct ev as [|smin|]; [| |done]; simpl in Hp.
  - unfold Run_step in Hp. by rewrite Hfrom in Hp.
  - destruct (gc_same_run smin st) as (Hsame & _). congruence.
Qed.

Lemma into_make_panic ev (st : State X) :
  Inv w st → InvLabelled st → pc st ≠ Panicked MakeSliceCap →
  pc (step w ev st) ≠ Panicked MakeSliceCap.
Proof.
  intros Hinv [Hc _ _] Hne Hp.
  pose proof (step_moves w ev st Hinv) as Hm.
  moves_cases Hm; try (rewrite Hpc' in Hp; discriminate).
  - destruct r as [rec seg [e|]|e]; rewrite ?Hpc' in Hp; try discriminate.
    rewrite Hp in Hpc'. by destruct Hpc'.
  - unfold seriesCache_get in Hget.
    destruct (cache st !! RefSample_Ref sample) as [e|] eqn:Hentry; [|done].
    injection Hget as Hget. by apply (Hc _ _ Hentry).
  - destruct Hq as [Hq|[_ Hl']]; [congruence|].
    rewrite Hp in Hl'. by destruct Hl'.
Qed.

End Panics.

(** X8.  A sample whose series the cache knows with an empty label set
    kills the process: the [make] of line 96 is given the capacity -1 and
    panics, before anything is logged or appended for the sample, and
    whatever the other goroutines did in between. *)
Theorem empty_label_set_panics `{X : Externals} (w : World X)
    (evs envs : list Event) (sample : RefSample) (rest : list RefSample) :
  pc (exec w evs (init w)) = InSamples (sample :: rest) →
  Forall is_env envs →
  seriesCache_get (RefSample_Ref sample) (cache (exec w (evs ++ envs) (init w)))
  = Some [] →
  let st0 := exec w evs (init w) in
  let st' := exec w (evs ++ envs ++ [RunStep]) (init w) in
  pc st' = Panicked MakeSliceCap
  ∧ effects st' = effects st0
  ∧ journal st' = journal st0.
Proof.
  intros Hpc Henv Hget st0 st'.
  destruct (before_sample w evs envs sample rest Hpc Henv) as (Hp & _ & _ & He & Hj).
  assert (Hst' : st' = step w RunStep (exec w (evs ++ envs) (init w))).
  { unfold st'. by rewrite app_assoc, exec_app. }
  rewrite Hst'. simpl. unfold Run_step, Run_sample.
  rewrite Hp, Hpc, Hget. simpl. by rewrite He, Hj.
Qed.

Lemma empty_label_set_panics_witness :
  pc (exec world_unlabelled (runs 8) (init world_unlabelled))
  = InSamples [sample6; sample7_nan]
  ∧ Forall is_env [GC 0]
  ∧ seriesCache_get (RefSample_Ref sample6)
      (cache (exec world_unlabelled (runs 8 ++ [GC 0]) (init world_unlabelled)))
    = Some []
  ∧ let st0 := exec world_unlabelled (runs 8) (init world_unlabelled) in
    let st' := exec world_unlabelled (runs 8 ++ [GC 0] ++ [RunStep])
                 (init world_unlabelled) in
    pc st' = Panicked MakeSliceCap
    ∧ effects st' = effects st0
    ∧ journal st' = journal st0.
Proof.
  assert (H1 : pc (exec world_unlabelled (runs 8) (init world_unlabelled))
               = InSamples [sample6; sample7_nan]) by (vm_compute; reflexivity).
  assert (H2 : Forall is_env [GC 0]) by (repeat constructor; discriminate).
  assert (H3 : seriesCache_get (RefSample_Ref sample6)
                 (cache (exec world_unlabelled (runs 8 ++ [GC 0])
                           (init world_unlabelled)))
               = Some []) by (vm_compute; reflexivity).
  exact (conj H1 (conj H2 (conj H3
           (empty_label_set_panics world_unlabelled (runs 8) [GC 0] sample6
              [sample7_nan] H1 H2 H3)))).
Defined.

(** X9.  On a WAL whose series declarations all carry at least one
    label, the [make] of line 96 never panics, under any interleaving. *)
Theorem labelled_WAL_never_panics_in_make `{X : Externals} (w : World X)
    (evs : list Event) :
  labelled w → pc (exec w evs (init w)) ≠ Panicked MakeSliceCap.
Proof.
  intros Hlab. induction evs as [|ev evs IH] using rev_ind; [done|].
  rewrite exec_app. simpl. apply into_make_panic; [apply Inv_reachable| |done].
  by apply InvLabelled_exec, InvLabelled_init.
Qed.

Lemma labelled_WAL_never_panics_in_make_witness :
  labelled world_rotation
  ∧ pc (exec world_rotation (runs 10 ++ [GC 0] ++ runs 4 ++ [GC 0] ++ runs 6)
          (init world_rotation))
    ≠ Panicked MakeSliceCap.
Proof.
  assert (H1 : labelled world_rotation).
  { unfold labelled. simpl. repeat (constructor; try done). }
  exact (conj H1 (labelled_WAL_never_panics_in_make world_rotation _ H1)).
Defined.


(** ** The labels of the outbound metric *)

Section OutboundLabels.

Lemma label_of_pair_label_pair (l : Label) : label_of_pair (label_pair l) = Some l.
Proof. by destruct l. Qed.

Lemma omap_label_of_pair (lset : Labels) :
  omap label_of_pair (label_pair <$> lset) = lset.
Proof.
  induction lset as [|[n v] lset IH]; [done|].
  simpl. f_equal. exact IH.
Qed.

Lemma names_and_others (lset : Labels) :
  (length (name_values lset) + length (other_labels lset))%nat = length lset.
Proof.
  unfold name_values, other_labels. rewrite length_fmap.
  induction lset as [|l lset IH]; [done|].
  rewrite !filter_cons. destruct (decide (Label_Name l = MetricName)).
  - rewrite decide_False by tauto. simpl. lia.
  - rewrite decide_True by done. simpl. lia.
Qed.

Lemma names_others_Permutation (lset : Labels) :
  filter (λ l, Label_Name l = MetricName) lset ++ other_labels lset ≡ₚ lset.
Proof.
  unfold other_labels. induction lset as [|l lset IH]; [done|].
  rewrite !filter_cons. destruct (decide (Label_Name l = MetricName)).
  - rewrite decide_False by tauto. simpl. by f_equiv.
  - rewrite decide_True by done.
    rewrite <- Permutation_middle. by f_equiv.
Qed.

End OutboundLabels.

(** X11.  No label pair of a metric family built by [Run] carries the
    reserved name label: every pair has its name and its value set, both
    taken from a label of the series whose name is not [__name__].  The
    pairs and the name labels together are as many as the labels of the
    series, so that with exactly one name label the capacity reserved on
    line 96 is exactly filled. *)
Theorem outbound_labels_exclude_name (lset : Labels) (sample : RefSample)
    (mf : dto_MetricFamily) (m : Metric) :
  buildMetricFamily lset sample = Some mf →
  m ∈ MetricFamily_Metric mf →
  (∀ lp, lp ∈ Metric_Label m →
         ∃ l, l ∈ lset ∧ Label_Name l ≠ MetricName
              ∧ LabelPair_Name lp = Some (Label_Name l)
              ∧ LabelPair_Value lp = Some (Label_Value l))
  ∧ (length (Metric_Label m) + length (name_values lset))%nat = length lset
  ∧ (∀ v, name_values lset = [v] →
          Z.of_nat (length (Metric_Label m)) = Z.of_nat (length lset) - 1).
Proof.
  intros Hmf Hm.
  assert (Hne : lset ≠ []).
  { intros ->. by rewrite (proj2 (buildMetricFamily_None [] sample)) in Hmf. }
  rewrite buildMetricFamily_Some in Hmf by done. injection Hmf as <-.
  simpl in Hm. apply list_elem_of_singleton in Hm as ->. simpl.
  pose proof (names_and_others lset) as Hlen.
  split; [|split].
  - intros lp (l & -> & Hl)%list_elem_of_fmap.
    apply list_elem_of_filter in Hl as [Hname Hl]. by exists l.
  - rewrite length_fmap. lia.
  - intros v Hv. rewrite Hv in Hlen. rewrite length_fmap. simpl in Hlen. lia.
Qed.

Lemma outbound_labels_exclude_name_witness :
  buildMetricFamily lset_x sample7 = Some (MetricFamily_pb f_sample7)
  ∧ {| Metric_Label := [{| LabelPair_Name := Some "a"; LabelPair_Value := Some "1" |}];
       Metric_Gauge := None;
       Metric_Counter := None;
       Metric_Untyped := Some {| Untyped_Value := Some 0x400C000000000000 |};
       Metric_TimestampMs := Some 1000 |}
    ∈ MetricFamily_Metric (MetricFamily_pb f_sample7)
  ∧ (∀ lp, lp ∈ [{| LabelPair_Name := Some "a"; LabelPair_Value := Some "1" |}] →
           ∃ l, l ∈ lset_x ∧ Label_Name l ≠ MetricName
                ∧ LabelPair_Name lp = Some (Label_Name l)
                ∧ LabelPair_Value lp = Some (Label_Value l))
  ∧ (length [{| LabelPair_Name := Some "a"; LabelPair_Value := Some "1" |}]
     + length (name_values lset_x))%nat = length lset_x
  ∧ (∀ v, name_values lset_x = [v] →
          Z.of_nat (length [{| LabelPair_Name := Some "a"; LabelPair_Value := Some "1" |}])
          = Z.of_nat (length lset_x) - 1).
Proof.
  assert (H1 : buildMetricFamily lset_x sample7 = Some (MetricFamily_pb f_sample7))
    by (vm_compute; reflexivity).
  assert (H2 : {| Metric_Label := [{| LabelPair_Name := Some "a";
                                      LabelPair_Value := Some "1" |}];
                  Metric_Gauge := None;
                  Metric_Counter := None;
                  Metric_Untyped := Some {| Untyped_Value := Some 0x400C000000000000 |};
                  Metric_TimestampMs := Some 1000 |}
               ∈ MetricFamily_Metric (MetricFamily_pb f_sample7))
    by (simpl; constructor).
  exact (conj H1 (conj H2
           (outbound_labels_exclude_name lset_x sample7 _ _ H1 H2))).
Defined.

(** X12.  For a series with exactly one name label the translation loses
    no label and invents none: the name of the metric family is the value
    of the name label, and the name label together with the labels read
    back from the label pairs is a rearrangement of the labels of the
    series (the other labels in their original order). *)
Theorem labels_survive_translation (lset : Labels) (sample : RefSample)
    (mf : dto_MetricFamily) (v : string) :
  buildMetricFamily lset sample = Some mf →
  name_values lset = [v] →
  MetricFamily_Name mf = Some v
  ∧ ∃ m, MetricFamily_Metric mf = [m]
         ∧ omap label_of_pair (Metric_Label m) = other_labels lset
         ∧ {| Label_Name := MetricName; Label_Value := v |}
             :: omap label_of_pair (Metric_Label m) ≡ₚ lset.
Proof.
  intros Hmf Hv.
  assert (Hne : lset ≠ []).
  { intros ->. by rewrite (proj2 (buildMetricFamily_None [] sample)) in Hmf. }
  rewrite buildMetricFamily_Some in Hmf by done. injection Hmf as <-. simpl.
  split; [by rewrite Hv|]. eexists. split; [done|]. simpl.
  rewrite omap_label_of_pair. split; [done|].
  rewrite <- (names_others_Permutation lset) at 2.
  unfold name_values in Hv.
  destruct (filter (λ l, Label_Name l = MetricName) lset) as [|l [|l' ls]] eqn:Hf;
    try done.
  injection Hv as Hv.
  assert (Hin : l ∈ filter (λ l, Label_Name l = MetricName) lset)
    by (rewrite Hf; by left).
  apply list_elem_of_filter in Hin as [Hname _].
  destruct l as [n v']. simpl in *. by subst.
Qed.

Lemma labels_survive_translation_witness :
  buildMetricFamily lset_x sample7 = Some (MetricFamily_pb f_sample7)
  ∧ name_values lset_x = ["x"]
  ∧ MetricFamily_Name (MetricFamily_pb f_sample7) = Some "x"
  ∧ ∃ m, MetricFamily_Metric (MetricFamily_pb f_sample7) = [m]
         ∧ omap label_of_pair (Metric_Label m) = other_labels lset_x
         ∧ {| Label_Name := MetricName; Label_Value := "x" |}
             :: omap label_of_pair (Metric_Label m) ≡ₚ lset_x.
Proof.
  assert (H1 : buildMetricFamily lset_x sample7 = Some (MetricFamily_pb f_sample7))
    by (vm_compute; reflexivity).
  assert (H2 : name_values lset_x = ["x"]) by (vm_compute; reflexivity).
  exact (conj H1 (conj H2 (labels_survive_translation lset_x sample7 _ "x" H1 H2))).
Defined.

(** ** Waiting for Prometheus *)

Section Waiting.

Lemma status_2xx (code : Z) : Z.quot code 100 = 2 ↔ 200 ≤ code ≤ 299.
Proof.
  pose proof (Z.quot_rem' code 100) as Hqr.
  destruct (Z_lt_le_dec code 0) as [Hneg|Hpos].
  - pose proof (Z.rem_bound_pos_neg code 100 ltac:(lia) ltac:(lia)). lia.
  - pose proof (Z.rem_bound_pos_pos code 100 ltac:(lia) ltac:(lia)). lia.
Qed.

Lemma waitForPrometheus_skip (s : Select) (rest : list Select) :
  ¬ ends_wait s →
  waitForPrometheus (s :: rest)
  = (wait_warning s ++ (waitForPrometheus rest).1, (waitForPrometheus rest).2).
Proof.
  intros Hs. destruct s as [|[resp|err]]; simpl in *.
  - by destruct Hs.
  - rewrite decide_False by (by rewrite status_2xx).
    by destruct (waitForPrometheus rest).
  - by destruct (waitForPrometheus rest).
Qed.

Lemma waitForPrometheus_end (s : Select) (rest : list Select) :
  ends_wait s → waitForPrometheus (s :: rest) = ([], HasReturned rest).
Proof.
  intros Hs. destruct s as [|[resp|err]]; simpl in *; [done| |done].
  by rewrite decide_True by (by rewrite status_2xx).
Qed.

End Waiting.

(** X13.  [waitForPrometheus] returns at the first case that is either
    the cancellation of the context or a tick whose request is answered
    with a status from 200 to 299, and takes no case after it; every
    tick before it, failed or answered with another status, is logged
    with one warning, in order. *)
Theorem waitForPrometheus_returns (pre : list Select) (s : Select) (post : list Select) :
  Forall (λ s, ¬ ends_wait s) pre →
  ends_wait s →
  waitForPrometheus (pre ++ s :: post) = (pre ≫= wait_warning, HasReturned post).
Proof.
  intros Hpre Hs. induction Hpre as [|s' pre Hs' Hpre IH]; simpl app.
  - by rewrite waitForPrometheus_end.
  - by rewrite waitForPrometheus_skip, IH.
Qed.

Lemma waitForPrometheus_returns_witness :
  Forall (λ s, ¬ ends_wait s)
    [tick_C (Err "connection refused");
     tick_C (Ok {| StatusCode := 503; Status := "503 Service Unavailable" |})]
  ∧ ends_wait (tick_C (Ok {| StatusCode := 204; Status := "204 No Content" |}))
  ∧ waitForPrometheus
      ([tick_C (Err "connection refused");
        tick_C (Ok {| StatusCode := 503; Status := "503 Service Unavailable" |})]
       ++ tick_C (Ok {| StatusCode := 204; Status := "204 No Content" |}) :: [ctx_Done])
    = ([tick_C (Err "connection refused");
        tick_C (Ok {| StatusCode := 503; Status := "503 Service Unavailable" |})]
       ≫= wait_warning,
       HasReturned [ctx_Done]).
Proof.
  assert (H1 : Forall (λ s, ¬ ends_wait s)
                 [tick_C (Err "connection refused");
                  tick_C (Ok {| StatusCode := 503;
                                Status := "503 Service Unavailable" |})]).
  { repeat constructor; simpl; [tauto|lia]. }
  assert (H2 : ends_wait (tick_C (Ok {| StatusCode := 204;
                                        Status := "204 No Content" |}))).
  { simpl. lia. }
  exact (conj H1 (conj H2 (waitForPrometheus_returns _ _ [ctx_Done] H1 H2))).
Defined.

(** X14.  As long as no case ends the wait, [waitForPrometheus] does not
    return: it has logged one warning for each tick and waits for the
    next case. *)
Theorem waitForPrometheus_keeps_waiting (selects : list Select) :
  Forall (λ s, ¬ ends_wait s) selects →
  waitForPrometheus selects = (selects ≫= wait_warning, StillWaiting).
Proof.
  intros Hs. induction Hs as [|s selects Hs Hrest IH]; [done|].
  by rewrite waitForPrometheus_skip, IH.
Qed.

Lemma waitForPrometheus_keeps_waiting_witness :
  Forall (λ s, ¬ ends_wait s)
    [tick_C (Ok {| StatusCode := 302; Status := "302 Found" |});
     tick_C (Err "connection refused")]
  ∧ waitForPrometheus
      [tick_C (Ok {| StatusCode := 302; Status := "302 Found" |});
       tick_C (Err "connection refused")]
    = ([tick_C (Ok {| StatusCode := 302; Status := "302 Found" |});
        tick_C (Err "connection refused")] ≫= wait_warning,
       StillWaiting).
Proof.
  assert (H1 : Forall (λ s, ¬ ends_wait s)
                 [tick_C (Ok {| StatusCode := 302; Status := "302 Found" |});
                  tick_C (Err "connection refused")]).
  { repeat constructor; simpl; [lia|tauto]. }
  exact (conj H1 (waitForPrometheus_keeps_waiting _ H1)).
Defined.

(** ** A run without collection follows the replay *)

Section Replaying.
Context `{X : Externals} (w : World X).

Lemma translate_batch_cons (c : seriesCache) (sample : RefSample) (rest : list RefSample)
    (d : Disposition) :
  dispose c sample = Some d →
  translate_batch c (sample :: rest)
  = ((sample, d) :: (translate_batch c rest).1, (translate_batch c rest).2).
Proof. intros Hd. simpl. by rewrite Hd. Qed.

Lemma translate_batch_panic (c : seriesCache) (sample : RefSample) (rest : list RefSample) :
  dispose c sample = None → translate_batch c (sample :: rest) = ([], false).
Proof. intros Hd. simpl. by rewrite Hd. Qed.

(** One step of [Run] or one [Stop] takes from the rest of the replay what
    it adds to the journal. *)
Lemma replay_step ev (st : State X) (rem : list (RefSample * Disposition)) :
  (∀ smin, ev ≠ GC smin) →
  (∀ r, replay_rest st = Some r → rem = r) →
  ∃ rem', journal st ++ rem = journal (step w ev st) ++ rem'
          ∧ (∀ r, replay_rest (step w ev st) = Some r → rem' = r).
Proof.
  intros Hev Hrem. destruct ev as [|smin|]; [| by destruct (Hev smin) |].
  - simpl. unfold Run_step.
    destruct (pc st) as [| | |l seg|l|e|why] eqn:Hpc.
    + exists rem. split; [done|]. unfold replay_rest in *. simpl.
      by rewrite Hpc in Hrem.
    + unfold Run_open. destruct (tail_Tail w); exists rem; (split; [done|]);
        unfold replay_rest in *; simpl; [done|]. by rewrite Hpc in Hrem.
    + unfold Run_next, reader_Next. destruct (ctxDone st).
      { exists rem. split; [done|]. by unfold replay_rest. }
      destruct (unread st) as [|r rs] eqn:Hun.
      { exists rem. by split. }
      unfold replay_rest in Hrem. rewrite Hpc, Hun in Hrem.
      specialize (Hrem _ eq_refl).
      destruct r as [rec seg [err|]|err];
        try (exists rem; split; [done|]; by unfold replay_rest).
      simpl in Hrem. unfold Run_dispatch.
      destruct (decoder_Type rec).
      * exists rem. split; [done|]. unfold replay_rest. simpl. by intros r [= <-].
      * destruct (decoder_Series rec) as [l|err]; exists rem; (split; [done|]);
          unfold replay_rest; simpl; by intros r [= <-].
      * destruct (decoder_Samples rec) as [l|err]; exists rem; (split; [done|]);
          unfold replay_rest; simpl; by intros r [= <-].
      * exists rem. split; [done|]. unfold replay_rest. simpl. by intros r [= <-].
    + unfold replay_rest in Hrem. rewrite Hpc in Hrem. specialize (Hrem _ eq_refl).
      destruct l as [|series rest]; exists rem; (split; [done|]);
        unfold replay_rest; simpl; by intros r [= <-].
    + unfold replay_rest in Hrem. rewrite Hpc in Hrem. specialize (Hrem _ eq_refl).
      destruct l as [|sample rest].
      { exists rem. split; [done|]. unfold replay_rest. simpl. by intros r [= <-]. }
      unfold Run_sample.
      assert (Hdis : dispose (cache st) sample
                     = match seriesCache_get (RefSample_Ref sample) (cache st) with
                       | None => Some UnknownRef
                       | Some lset =>
                           match buildMetricFamily lset sample with
                           | None => None
                           | Some mf =>
                               match NewMetricFamily mf [NoTimestamp] (targetLabels lset) with
                               | Err err => Some (CannotConstruct err)
                               | Ok f => Some (Emitted lset f)
                               end
                           end
                       end) by done.
      destruct (seriesCache_get _ _) as [lset|].
      * destruct (buildMetricFamily lset sample) as [mf|].
        -- destruct (NewMetricFamily mf _ _) as [f|err];
             rewrite (translate_batch_cons _ _ _ _ Hdis) in Hrem; simpl in Hrem;
             eexists; (split; [simpl; by rewrite <- app_assoc, Hrem|]);
             unfold replay_rest; simpl; by intros r [= <-].
        -- exists rem. split; [done|]. by unfold replay_rest.
      * rewrite (translate_batch_cons _ _ _ _ Hdis) in Hrem. simpl in Hrem.
        eexists. split; [simpl; by rewrite <- app_assoc, Hrem|].
        unfold replay_rest. simpl. by intros r [= <-].
    + exists rem. by split.
    + exists rem. by split.
  - simpl. unfold Stop.
    destruct (pc st) eqn:Hpc; try (exists rem; by split);
      destruct (cancelTail (rdr st)) as [[]|]; exists rem; (split; [done|]);
      unfold replay_rest in *; simpl; rewrite ?Hpc in *; done.
Qed.

Lemma replay_invariant (evs : list Event) :
  (∀ smin, GC smin ∉ evs) →
  ∃ rem, replay ∅ (responses w) = journal (exec w evs (init w)) ++ rem
         ∧ (∀ r, replay_rest (exec w evs (init w)) = Some r → rem = r).
Proof.
  induction evs as [|ev evs IH] using rev_ind; intros Hno.
  - exists (replay ∅ (responses w)). split; [done|]. by intros r [= <-].
  - destruct IH as (rem & Hr & Hrest).
    { intros smin Hin. apply (Hno smin), elem_of_app. by left. }
    rewrite exec_app. simpl.
    destruct (replay_step ev (exec w evs (init w)) rem) as (rem' & Hj & Hrest');
      [|done|].
    { intros smin ->. apply (Hno smin), elem_of_app. right. by left. }
    exists rem'. split; [congruence|done].
Qed.

Lemma journal_prefix_of_replay (evs : list Event) :
  (∀ smin, GC smin ∉ evs) →
  journal (exec w evs (init w)) `prefix_of` replay ∅ (responses w).
Proof.
  intros Hno. destruct (replay_invariant evs Hno) as (rem & Hr & _). by exists rem.
Qed.

End Replaying.

(** ** After cancellation nothing more is read *)

Section Drained.
Context `{X : Externals} (w : World X).




Lemma idle_has_read_nothing (evs : list Event) :
  pc (exec w evs (init w)) = NotStarted
  ∨ pc (exec w evs (init w)) = Panicked NilFuncCall →
  journal (exec w evs (init w)) = [] ∧ unread (exec w evs (init w)) = responses w.
Proof.
  apply (reachable_ind w
    (λ st, pc st = NotStarted ∨ pc st = Panicked NilFuncCall →
           journal st = [] ∧ unread st = responses w)); [done|].
  intros st st' _ Hm IH Hp.
  moves_cases Hm; try (rewrite Hpc' in Hp; by destruct Hp).
  - destruct r as [rec seg [e|]|e]; try (rewrite Hpc' in Hp; by destruct Hp).
    destruct Hp as [Hp|Hp]; rewrite Hp in Hpc'; by destruct Hpc'.
  - rewrite Hj, Hu. apply IH. by left.
  - rewrite Hj, Hu. apply IH. destruct Hq as [Hq|[_ Hl']]; [by rewrite <- Hq|].
    destruct Hp as [Hp|Hp]; rewrite Hp in Hl'; by destruct Hl'.
Qed.

End Drained.

(** C7 (amended).  In every state of every interleaving: every sample of
    the records read so far has gone through the loop body, in the order
    of the WAL, or is still waiting in the current batch; each of them has
    left its one trace among the effects, a warning if it was dropped and
    an [Append] call otherwise, in that order.  So for any ref the samples
    that went through the loop body are an initial stretch of the samples
    of that ref in the WAL, and those that were appended are, in call
    order, a subsequence of the samples of that ref in WAL order: a
    dropped sample is left out, none is moved.  When the collector does
    not run, which samples are appended and which are dropped is what
    reading the WAL in one go gives. *)
Theorem appends_follow_WAL_order `{X : Externals} (w : World X) (evs : list Event)
    (ref : Z) :
  let st := exec w evs (init w) in
  appended (effects st) = (emitted (journal st)).*2
  ∧ sample_traces (effects st) = trace_of <$> journal st
  ∧ Forall sound_entry (journal st)
  ∧ (∃ consumed todo,
        responses w = consumed ++ unread st
        ∧ (journal st).*1 ++ todo = wal_samples consumed
        ∧ settled (pc st) todo)
  ∧ (of_ref ref (journal st)).*1
      `prefix_of` filter (λ s, RefSample_Ref s = ref) (wal_samples (responses w))
  ∧ (emitted (of_ref ref (journal st))).*1
      `sublist_of` filter (λ s, RefSample_Ref s = ref) (wal_samples (responses w))
  ∧ (emitted (of_ref ref (journal st))).*2 `sublist_of` appended (effects st)
  ∧ ((∀ smin, GC smin ∉ evs) → journal st `prefix_of` replay ∅ (responses w)).
Proof.
  intros st. pose proof (Inv_reachable w evs) as Hinv. fold st in Hinv.
  assert (Hpre : (of_ref ref (journal st)).*1
                   `prefix_of` filter (λ s, RefSample_Ref s = ref)
                                 (wal_samples (responses w))).
  { destruct (journal_prefix_of_wal w st Hinv) as [k ->].
    rewrite filter_fst_of_ref, filter_app. by eexists. }
  split; [by destruct Hinv|].
  split; [apply traces_are_the_journal|].
  split; [by destruct Hinv|].
  split; [by destruct Hinv|].
  split; [done|]. split; [|split].
  - etrans; [apply emitted_sublist|]. by apply prefix_sublist.
  - destruct Hinv as [_ -> _ _ _]. rewrite emitted_of_ref.
    apply fmap_sublist, sublist_filter.
  - apply journal_prefix_of_replay.
Qed.

Lemma appends_follow_WAL_order_witness :
  (∀ smin, GC smin ∉ runs 22)
  ∧ let st := exec world_rotation (runs 22) (init world_rotation) in
    appended (effects st) = (emitted (journal st)).*2
    ∧ sample_traces (effects st) = trace_of <$> journal st
    ∧ Forall sound_entry (journal st)
    ∧ (∃ consumed todo,
          responses world_rotation = consumed ++ unread st
          ∧ (journal st).*1 ++ todo = wal_samples consumed
          ∧ settled (pc st) todo)
    ∧ (of_ref 7 (journal st)).*1
        `prefix_of` filter (λ s, RefSample_Ref s = 7) (wal_samples (responses world_rotation))
    ∧ (emitted (of_ref 7 (journal st))).*1
        `sublist_of` filter (λ s, RefSample_Ref s = 7)
                       (wal_samples (responses world_rotation))
    ∧ (emitted (of_ref 7 (journal st))).*2 `sublist_of` appended (effects st)
    ∧ ((∀ smin, GC smin ∉ runs 22) →
       journal st `prefix_of` replay ∅ (responses world_rotation)).
Proof.
  assert (H1 : ∀ smin, GC smin ∉ runs 22).
  { intros smin Hin. apply elem_of_replicate in Hin as [Hin _]. discriminate. }
  exact (conj H1 (appends_follow_WAL_order world_rotation (runs 22) 7)).
Defined.

(** C7 as stated fails: the first sample of ref 7 comes before the
    declaration of its series and is dropped; after the whole WAL has
    been read, the samples appended for ref 7 are not the samples of
    ref 7 in the WAL. *)
Lemma dropped_sample_breaks_equality :
  let st := exec world_early (runs 11) (init world_early) in
  pc st = AtNext
  ∧ unread st = []
  ∧ filter (λ s, RefSample_Ref s = 7) (wal_samples (responses world_early))
    = [sample7; sample7_nan]
  ∧ (emitted (of_ref 7 (journal st))).*1 = [sample7_nan]
  ∧ (emitted (of_ref 7 (journal st))).*1
    ≠ filter (λ s, RefSample_Ref s = 7) (wal_samples (responses world_early)).
Proof. vm_compute. repeat split. discriminate. Qed.

(** Without collection the journal of a run is the replay of the WAL: on
    the WAL of two alternating series and on the WAL with an early
    sample. *)
Example runs_follow_the_replay :
  journal (exec world_rotation (runs 22) (init world_rotation))
  = replay ∅ (responses world_rotation)
  ∧ journal (exec world_early (runs 11) (init world_early))
    = replay ∅ (responses world_early)
  ∧ (replay ∅ (responses world_early)).*1 = [sample7; sample7_nan]
  ∧ (emitted (replay ∅ (responses world_early))).*1 = [sample7_nan].
Proof. vm_compute. done. Qed.




(** X10.  The process dies of a call of a nil func value only at a
    [Stop] that finds [r.cancelTail] still nil; when that has happened, no
    record has been read, no sample has gone through the loop body and
    nothing has been appended. *)
Theorem nil_panic_comes_from_early_Stop `{X : Externals} (w : World X)
    (evs : list Event) :
  pc (exec w evs (init w)) = Panicked NilFuncCall →
  (∃ pre post, evs = pre ++ StopCall :: post
               ∧ cancelTail (rdr (exec w pre (init w))) = None)
  ∧ unread (exec w evs (init w)) = responses w
  ∧ journal (exec w evs (init w)) = []
  ∧ appended (effects (exec w evs (init w))) = [].
Proof.
  intros Hp. split; [|split; [|split]].
  - clear -Hp. induction evs as [|ev evs IH] using rev_ind; [done|].
    rewrite exec_app in Hp. simpl in Hp.
    apply into_nil_panic in Hp as [Hp|[Hp ->]]; [| |apply Inv_reachable].
    + destruct (IH Hp) as (pre & post & -> & Hno).
      exists pre, (post ++ [ev]). by rewrite <- app_assoc.
    + exists evs, []. split; [done|]. by apply NotStarted_no_cancel.
  - apply idle_has_read_nothing. by right.
  - apply idle_has_read_nothing. by right.
  - pose proof (lifecycle_phases w evs) as Hlife. cbv zeta in Hlife.
    rewrite Hp in Hlife. simpl in Hlife. by destruct Hlife as [-> | ->].
Qed.

Lemma nil_panic_comes_from_early_Stop_witness :
  pc (exec world_S1 [GC 0; StopCall; RunStep] (init world_S1)) = Panicked NilFuncCall
  ∧ (∃ pre post, [GC 0; StopCall; RunStep] = pre ++ StopCall :: post
                 ∧ cancelTail (rdr (exec world_S1 pre (init world_S1))) = None)
  ∧ unread (exec world_S1 [GC 0; StopCall; RunStep] (init world_S1))
    = responses world_S1
  ∧ journal (exec world_S1 [GC 0; StopCall; RunStep] (init world_S1)) = []
  ∧ appended (effects (exec world_S1 [GC 0; StopCall; RunStep] (init world_S1))) = [].
Proof.
  assert (H1 : pc (exec world_S1 [GC 0; StopCall; RunStep] (init world_S1))
               = Panicked NilFuncCall) by (vm_compute; reflexivity).
  exact (conj H1 (nil_panic_comes_from_early_Stop world_S1 _ H1)).
Defined.
